(** * Rutein: stop lifecycle and itinerary derivation

    A shallow embedding of the itinerary store of [App] (the component of
    the trip planner): the [Stop] record of [types.ts], the three mutators
    [addStop], [toggleStatus], [deleteStop], the save/reset effect that
    follows every change of the [stops] state, and the derived views
    [sortedStops], [nextStop], [skippedStops], [completedStops] and
    [totalCost]. *)

From Stdlib Require Import ZArith List String Ascii Bool Lia.
From Stdlib Require Import Permutation Sorted.
Import ListNotations.

Set Implicit Arguments.
Open Scope string_scope.
Open Scope Z_scope.
Open Scope list_scope.

(* ================================================================== *)
(** ** JavaScript values used by the component *)
(* ================================================================== *)

(** A JavaScript [number] as far as the store needs it: [NaN], or a finite
    value.  Costs, time values and lengths are integers here; on integers of
    magnitude below 2^53 JavaScript's arithmetic is the exact one used
    below. *)
Inductive number : Type :=
| NaN
| Num (z : Z).

(** [a + b] and [a - b], on the integers the model holds.  The additions
    of JavaScript are those of doubles: they agree with these as long as
    operands and result stay within the safe integers (magnitude at most
    2^53 - 1); a property that compares sums carries that bound as a
    hypothesis ([safeCosts] below). *)
Definition add (a b : number) : number :=
  match a, b with
  | Num x, Num y => Num (x + y)
  | _, _ => NaN
  end.

Definition sub (a b : number) : number :=
  match a, b with
  | Num x, Num y => Num (x - y)
  | _, _ => NaN
  end.

(** [a < 0] and [a > 0]; every comparison with [NaN] is false. *)
Definition ltZero (a : number) : bool :=
  match a with
  | Num x => x <? 0
  | NaN => false
  end.

Definition gtZero (a : number) : bool :=
  match a with
  | Num x => 0 <? x
  | NaN => false
  end.

(** ToBoolean on a number: [NaN] and [0] are falsy. *)
Definition truthy (a : number) : bool :=
  match a with
  | Num x => negb (x =? 0)
  | NaN => false
  end.

(** [a || 0] on a number. *)
Definition orZero (a : number) : number :=
  if truthy a then a else Num 0.

(** [c || 0] on an optional number ([undefined] is falsy). *)
Definition optOrZero (c : option number) : number :=
  match c with
  | Some a => orZero a
  | None => Num 0
  end.

(** The two library functions the component calls on strings: the built-in
    [Number] (on the text of the cost field) and date-fns' [parseISO]
    (composed with the conversion of the resulting [Date] to its time
    value, [NaN] for an Invalid Date).  The store is written against this
    interface. *)
Class Builtins : Type := {
  Number : string -> number;
  parseISO : string -> number
}.

(** date-fns' [compareAsc] on the time values of its two arguments:
    [diff = +left - +right], then [-1] if [diff < 0], [1] if [diff > 0],
    else [diff] itself (which is [0], or [NaN] when a date is invalid). *)
Definition compareAsc (dateLeft dateRight : number) : number :=
  let diff := sub dateLeft dateRight in
  if ltZero diff then Num (-1)
  else if gtZero diff then Num 1
  else diff.

(** [Array.prototype.sort(comparefn)].  The comparator's result is read as
    the specification's SortCompare does ([NaN] counts as [+0]); the sort
    is stable, here by insertion from the right: an element moves behind
    exactly the elements it compares greater than.  (With a comparator
    that is not a consistent ordering, which [byDateTime] below is only
    when a date is invalid, engines are free in the order they produce;
    the model fixes this one.) *)
Section ArraySort.
Variable A : Type.
Variable comparefn : A -> A -> number.

Definition sortCompare (x y : A) : Z :=
  match comparefn x y with
  | NaN => 0
  | Num v => v
  end.

Fixpoint insert (x : A) (l : list A) : list A :=
  match l with
  | [] => [x]
  | y :: l' => if 0 <? sortCompare x y then y :: insert x l' else x :: l
  end.

Definition Array_sort (l : list A) : list A :=
  fold_right insert [] l.
End ArraySort.

(* ================================================================== *)
(** ** The data model ([types.ts]) *)
(* ================================================================== *)

Inductive StopStatus : Type :=
| planned
| visited
| skipped.

Definition StopStatus_eqb (a b : StopStatus) : bool :=
  match a, b with
  | planned, planned | visited, visited | skipped, skipped => true
  | _, _ => false
  end.

(** [interface Stop]; [notes] and [cost] are the optional fields, [order] is
    only ever written from an array length. *)
Record Stop : Type := mkStop {
  id : string;
  title : string;
  address : string;
  dateTime : string;
  notes : option string;
  cost : option number;
  status : StopStatus;
  order : nat
}.

(** [{ ...s, status: nextStatus }] *)
Definition withStatus (s : Stop) (nextStatus : StopStatus) : Stop :=
  {| id := id s; title := title s; address := address s;
     dateTime := dateTime s; notes := notes s; cost := cost s;
     status := nextStatus; order := order s |}.

(** The entries of the add form, as [formData.get] returns them: the form
    has exactly these six named text controls, so each is a string. *)
Record FormData : Type := mkFormData {
  get_title : string;
  get_address : string;
  get_date : string;
  get_time : string;
  get_notes : string;
  get_cost : string
}.

(** What the component owns and touches: the [stops] state, the entry
    ['tourmate_stops'] of [localStorage] ([None] when the key is absent,
    otherwise the array whose JSON text it holds) and the number of
    [alert]s shown so far. *)
Record World : Type := mkWorld {
  stops : list Stop;
  storage : option (list Stop);
  alerts : nat
}.

Definition withStops (next : list Stop) (w : World) : World :=
  {| stops := next; storage := storage w; alerts := alerts w |}.

(** The world before anything was added or stored. *)
Definition initial : World :=
  {| stops := []; storage := None; alerts := 0%nat |}.

(* ================================================================== *)
(** ** The itinerary store ([App]) *)
(* ================================================================== *)

Section Store.
Context {builtins : Builtins}.

(** The comparator passed to both [sort] calls:
    [(a, b) => compareAsc(parseISO(a.dateTime), parseISO(b.dateTime))]. *)
Definition byDateTime (a b : Stop) : number :=
  compareAsc (parseISO (dateTime a)) (parseISO (dateTime b)).

(** One run of the effect "Save data & Check for reset" for the rendered
    [stops]: what it does to the world, and the state update it enqueues.
    Over the cap it alerts, calls [setStops([])] and removes the storage
    entry; otherwise it writes the array to the storage entry. *)
Definition saveResetEffect (w : World) : World * option (list Stop) :=
  if (10 <? List.length (stops w))%nat then
    ({| stops := stops w; storage := None; alerts := S (alerts w) |},
     Some [])
  else
    ({| stops := stops w; storage := Some (stops w); alerts := alerts w |},
     None).

(** A state update followed by React's re-rendering.  The effect is
    declared with the dependency list [[stops]], so it runs after every
    render in which [stops] is a new array: the array passed to the update
    is rendered and the effect runs for it; when the effect itself enqueues
    an update (the [[]] of the reset, a new array again), that one is
    rendered and the effect runs once more, for the empty array.  [fuel]
    bounds the number of renders; with none left the pending array is
    installed without its effect.  The render itself formats the
    [dateTime] of every stop and fails on one that is no date, before any
    effect runs: what is modelled is the rendering of arrays whose dates
    are valid, and a property about what an update leads to carries that
    as a hypothesis. *)
Fixpoint render (fuel : nat) (next : list Stop) (w : World) : World :=
  match fuel with
  | O => withStops next w
  | S fuel' =>
      let (w', pending) := saveResetEffect (withStops next w) in
      match pending with
      | None => w'
      | Some s => render fuel' s w'
      end
  end.

(** [setStops(next)]: two renders always reach quiescence (see
    [render_fuel]). *)
Definition setStops (next : list Stop) (w : World) : World :=
  render 2 next w.

(** The object literal built by [addStop]; [uuid] is the result of
    [crypto.randomUUID()], [count] the value of [stops.length]. *)
Definition newStop (uuid : string) (formData : FormData)
    (count : nat) : Stop :=
  {| id := uuid;
     title := get_title formData;
     address := get_address formData;
     dateTime := String.append (get_date formData)
                   (String.append "T" (get_time formData));
     notes := Some (get_notes formData);
     cost := Some (orZero (Number (get_cost formData)));
     status := planned;
     order := count |}.

(** [[...stops, newStop].sort(...)] *)
Definition updatedStops (uuid : string) (formData : FormData)
    (current : list Stop) : list Stop :=
  Array_sort byDateTime
    (current ++ [newStop uuid formData (List.length current)]).

Definition addStop (uuid : string) (formData : FormData) (w : World)
    : World :=
  setStops (updatedStops uuid formData (stops w)) w.

(** The updater passed to [setStops] by [toggleStatus]. *)
Definition toggled (id0 : string) (forceStatus : option StopStatus)
    (prev : list Stop) : list Stop :=
  map (fun s =>
         if String.eqb (id s) id0 then
           let nextStatus :=
             match forceStatus with
             | Some f => f
             | None =>
                 if StopStatus_eqb (status s) visited then planned
                 else visited
             end in
           withStatus s nextStatus
         else s)
      prev.

Definition toggleStatus (id0 : string) (forceStatus : option StopStatus)
    (w : World) : World :=
  setStops (toggled id0 forceStatus (stops w)) w.

Definition deleteStop (id0 : string) (w : World) : World :=
  setStops (filter (fun s => negb (String.eqb (id s) id0)) (stops w)) w.

(** The mount of the component on a page whose [localStorage] is that of
    [w]: the first render has [stops = []]; the load effect reads the
    saved entry and, when there is one, enqueues [setStops(parsed)]; the
    save effect of that first render runs on the empty array; then the
    enqueued array is rendered.  The storage entry is absent or holds the
    JSON text of an array of stops; a text that [JSON.parse] rejects, or
    that is no such array, makes the load fail and is outside the
    model. *)
Definition mount (w : World) : World :=
  let saved := storage w in
  let w1 := fst (saveResetEffect (withStops [] w)) in
  match saved with
  | Some parsed => setStops parsed w1
  | None => w1
  end.

(** *** Derived views *)

Definition sortedStops (current : list Stop) : list Stop :=
  Array_sort byDateTime current.

Definition nextStop (current : list Stop) : option Stop :=
  find (fun s => StopStatus_eqb (status s) planned) (sortedStops current).

Definition skippedStops (current : list Stop) : list Stop :=
  filter (fun s => StopStatus_eqb (status s) skipped) (sortedStops current).

Definition completedStops (current : list Stop) : list Stop :=
  filter (fun s => StopStatus_eqb (status s) visited) (sortedStops current).

(** [stops.reduce((acc, stop) => acc + (stop.cost || 0), 0)] *)
Definition totalCost (current : list Stop) : number :=
  fold_left (fun acc stop => add acc (optOrZero (cost stop)))
            current (Num 0).

(** A run of [addStop] calls, each with its fresh id and form entries. *)
Definition addStops (calls : list (string * FormData)) (w : World)
    : World :=
  fold_left (fun w c => addStop (fst c) (snd c) w) calls w.
End Store.

(* ================================================================== *)
(** ** A concrete instance of the two library functions *)
(* ================================================================== *)

(** The instance below is what the examples evaluate with.  It covers the
    texts the add form submits: a cost field of [type="number"] with the
    default step holds the empty string or an integer, the date and time
    fields hold [yyyy-MM-dd] and [HH:mm].  Strings outside these shapes
    (fractions, exponents, hexadecimal literals, seconds, zones) are not
    interpreted by the instance and yield [NaN]. *)

Definition isWhiteSpace (c : ascii) : bool :=
  let n := nat_of_ascii c in
  ((n =? 32) || ((9 <=? n) && (n <=? 13)))%nat.

Fixpoint trimStart (l : list ascii) : list ascii :=
  match l with
  | c :: l' => if isWhiteSpace c then trimStart l' else l
  | [] => []
  end.

Definition trim (l : list ascii) : list ascii :=
  rev (trimStart (rev (trimStart l))).

Definition digit (c : ascii) : option Z :=
  let n := nat_of_ascii c in
  if ((48 <=? n) && (n <=? 57))%nat then Some (Z.of_nat n - 48) else None.

(** The value of a run of decimal digits, read left to right from [acc]. *)
Fixpoint digits (acc : Z) (l : list ascii) : option Z :=
  match l with
  | [] => Some acc
  | c :: l' =>
      match digit c with
      | Some d => digits (10 * acc + d) l'
      | None => None
      end
  end.

Definition unsignedInt (l : list ascii) : number :=
  match l with
  | [] => NaN
  | _ =>
      match digits 0 l with
      | Some v => Num v
      | None => NaN
      end
  end.

(** StringToNumber on signed decimal integers: surrounding white space is
    dropped, the empty text is [0]. *)
Definition Number_int (s : string) : number :=
  match trim (list_ascii_of_string s) with
  | [] => Num 0
  | "+"%char :: l => unsignedInt l
  | "-"%char :: l =>
      match unsignedInt l with
      | Num v => Num (- v)
      | NaN => NaN
      end
  | l => unsignedInt l
  end.

Definition isLeapYear (y : Z) : bool :=
  ((y mod 4 =? 0) && negb (y mod 100 =? 0)) || (y mod 400 =? 0).

Definition daysInMonth (y m : Z) : Z :=
  if m =? 2 then (if isLeapYear y then 29 else 28)
  else if (m =? 4) || (m =? 6) || (m =? 9) || (m =? 11) then 30
  else 31.

(** Days from 1970-01-01 to the given day of the proleptic Gregorian
    calendar. *)
Definition daysFromCivil (y m d : Z) : Z :=
  let y' := if m <=? 2 then y - 1 else y in
  let era := y' / 400 in
  let yoe := y' - era * 400 in
  let mp := if 2 <? m then m - 3 else m + 9 in
  let doy := (153 * mp + 2) / 5 + d - 1 in
  let doe := yoe * 365 + yoe / 4 - yoe / 100 + doy in
  era * 146097 + doe - 719468.

(** [parseISO] on [yyyy-MM-ddTHH:mm], in a zone without offset: the time
    value in milliseconds, [NaN] for any other text or an impossible date. *)
Definition parseISO_utc (s : string) : number :=
  match list_ascii_of_string s with
  | [y1; y2; y3; y4; "-"%char; m1; m2; "-"%char; d1; d2; "T"%char;
      h1; h2; ":"%char; n1; n2] =>
      match digits 0 [y1; y2; y3; y4], digits 0 [m1; m2],
            digits 0 [d1; d2], digits 0 [h1; h2], digits 0 [n1; n2] with
      | Some y, Some m, Some d, Some h, Some n =>
          if (1 <=? m) && (m <=? 12) && (1 <=? d) && (d <=? daysInMonth y m)
             && (h <=? 23) && (n <=? 59)
          then Num (((daysFromCivil y m d * 24 + h) * 60 + n) * 60000)
          else NaN
      | _, _, _, _, _ => NaN
      end
  | _ => NaN
  end.

Definition formBuiltins : Builtins :=
  {| Number := Number_int; parseISO := parseISO_utc |}.

(** [parseISO] on the same texts in the zone of New York, with the
    transitions of 2024: the text gives a wall-clock time, and the time
    value is that of the wall clock plus five hours before 10 March 03:00
    and from 3 November 02:00 on, plus four hours in between.  A wall-clock
    time that the spring transition skips (10 March, 02:00 to 02:59) is
    read with the offset in force before the transition, as [Date] does:
    [02:30] is the instant that the clocks show as [03:30]. *)
Definition parseISO_newYork (s : string) : number :=
  match parseISO_utc s, parseISO_utc "2024-03-10T03:00",
        parseISO_utc "2024-11-03T02:00" with
  | Num wall, Num spring, Num autumn =>
      if wall <? spring then Num (wall + 5 * 3600000)
      else if wall <? autumn then Num (wall + 4 * 3600000)
      else Num (wall + 5 * 3600000)
  | _, _, _ => NaN
  end.

Definition newYorkBuiltins : Builtins :=
  {| Number := Number_int; parseISO := parseISO_newYork |}.

(* ================================================================== *)
(** ** Vocabulary of the properties *)
(* ================================================================== *)

Section Vocabulary.
Context {builtins : Builtins}.

(** The instant a stop is scheduled at, as the comparator sees it. *)
Definition timeOf (s : Stop) : number := parseISO (dateTime s).

(** The stop's [dateTime] denotes a date: [parseISO] does not return an
    Invalid Date. *)
Definition validTime (s : Stop) : Prop := timeOf s <> NaN.

(** [a] is scheduled no later than [b] / strictly before [b]. *)
Definition chron (a b : Stop) : Prop :=
  match timeOf a, timeOf b with
  | Num x, Num y => x <= y
  | _, _ => False
  end.

Definition earlier (a b : Stop) : Prop :=
  match timeOf a, timeOf b with
  | Num x, Num y => x < y
  | _, _ => False
  end.

(** An array in ascending order of valid dates, and the invariant of the
    store: the array and the saved array are such, and the array is
    within the cap. *)
Definition chronological (l : list Stop) : Prop :=
  StronglySorted chron l /\ Forall validTime l.

Definition invariant (w : World) : Prop :=
  chronological (stops w)
  /\ (List.length (stops w) <= 10)%nat
  /\ forall saved, storage w = Some saved -> chronological saved.

(** The entry in storage, when there is one, holds stops whose dates are
    valid. *)
Definition validSaved (w : World) : Prop :=
  forall saved, storage w = Some saved -> Forall validTime saved.

(** The instant an [addStop] call asks for. *)
Definition callTime (c : string * FormData) : number :=
  timeOf (newStop (fst c) (snd c) 0).

(** The stops a run of [addStop] calls creates when the collection holds
    [n] stops at its start and no reset intervenes. *)
Fixpoint created (n : nat) (calls : list (string * FormData))
    : list Stop :=
  match calls with
  | [] => []
  | c :: calls' => newStop (fst c) (snd c) n :: created (S n) calls'
  end.

(** The reachable worlds: the component is mounted, possibly again on the
    storage an earlier session left, and the three mutators are called;
    every added stop has a [dateTime] that denotes a date. *)
Inductive reachable : World -> Prop :=
| reach_initial : reachable initial
| reach_mount w : reachable w -> reachable (mount w)
| reach_add w uuid formData :
    reachable w ->
    validTime (newStop uuid formData (List.length (stops w))) ->
    reachable (addStop uuid formData w)
| reach_toggle w id0 forceStatus :
    reachable w -> reachable (toggleStatus id0 forceStatus w)
| reach_delete w id0 :
    reachable w -> reachable (deleteStop id0 w).
End Vocabulary.

(** A stop with its [order] forgotten. *)
Definition forgetOrder (s : Stop) : Stop :=
  {| id := id s; title := title s; address := address s;
     dateTime := dateTime s; notes := notes s; cost := cost s;
     status := status s; order := 0%nat |}.

(** The amount a stop contributes to the total: its cost, [0] when the
    field is absent (or holds [NaN], which no operation stores). *)
Definition costValue (s : Stop) : Z :=
  match cost s with
  | Some (Num z) => z
  | _ => 0
  end.

Definition sumZ (l : list Z) : Z := fold_right Z.add 0 l.

(** [Number.MAX_SAFE_INTEGER] *)
Definition maxSafeInteger : Z := 2 ^ 53 - 1.

(** The costs of the collection stay within the safe integers however
    they are added up: their absolute values total at most
    [maxSafeInteger], so every sum of some of them, in any order, is an
    integer that a double holds exactly, and no addition of the reduce
    rounds. *)
Definition safeCosts (l : list Stop) : Prop :=
  sumZ (map (fun s => Z.abs (costValue s)) l) <= maxSafeInteger.

(** A world at rest: within the cap and saved. *)
Definition settled (w : World) : Prop :=
  (List.length (stops w) <= 10)%nat /\ storage w = Some (stops w).

(** The toggle without a forced status, on one status. *)
Definition flipStatus (st : StopStatus) : StopStatus :=
  match st with
  | visited => planned
  | _ => visited
  end.

(* ================================================================== *)
(** ** Sample data *)
(* ================================================================== *)

Definition sampleForm (name date time amount : string) : FormData :=
  {| get_title := name; get_address := "Jl. Malioboro";
     get_date := date; get_time := time;
     get_notes := ""; get_cost := amount |}.

(** Ten calls on one day, from 08:00 to 17:00, entered out of order. *)
Definition tenCalls : list (string * FormData) :=
  [ ("id-3", sampleForm "Taman Sari" "2024-05-01" "10:00" "15000");
    ("id-1", sampleForm "Keraton" "2024-05-01" "08:00" "25000");
    ("id-2", sampleForm "Pasar" "2024-05-01" "09:00" "");
    ("id-6", sampleForm "Museum" "2024-05-01" "13:00" "10000");
    ("id-4", sampleForm "Alun-alun" "2024-05-01" "11:00" "0");
    ("id-5", sampleForm "Warung" "2024-05-01" "12:00" "40000");
    ("id-9", sampleForm "Tugu" "2024-05-01" "16:00" "");
    ("id-7", sampleForm "Benteng" "2024-05-01" "14:00" "20000");
    ("id-8", sampleForm "Stasiun" "2024-05-01" "15:00" "8000");
    ("id-10", sampleForm "Hotel" "2024-05-01" "17:00" "350000") ].

(** The world after these ten calls. *)
Definition tenStopsWorld : World := @addStops formBuiltins tenCalls initial.

Definition eleventhForm : FormData :=
  sampleForm "Bandara" "2024-05-02" "06:30" "120000".

(** Two calls, the later stop entered first. *)
Definition lateForm : FormData := sampleForm "Makan malam" "2024-05-01" "19:00" "".
Definition earlyForm : FormData := sampleForm "Sarapan" "2024-05-01" "07:00" "".

Definition twoStopsWorld : World :=
  @addStop formBuiltins "id-b" earlyForm
    (@addStop formBuiltins "id-a" lateForm initial).

(** The stops these two calls create. *)
Definition lateStop : Stop := @newStop formBuiltins "id-a" lateForm 0.
Definition earlyStop : Stop := @newStop formBuiltins "id-b" earlyForm 1.

(** A form whose cost field holds a negative amount. *)
Definition refundForm : FormData :=
  sampleForm "Pengembalian tiket" "2024-05-01" "09:30" "-5".

(** A stop as it may come back from storage, with the given time of day,
    cost and status. *)
Definition sampleStop (name time : string) (c : option number)
    (st : StopStatus) : Stop :=
  {| id := name; title := name; address := "Jl. Malioboro";
     dateTime := String.append "2024-05-01T" time; notes := None;
     cost := c; status := st; order := 0%nat |}.

(** Four stops with costs [1000, 0, undefined, 2500] in array order and
    statuses [visited, skipped, planned, planned] in chronological order. *)
Definition stopA : Stop := sampleStop "A" "15:00" (Some (Num 1000)) planned.
Definition stopB : Stop := sampleStop "B" "08:00" (Some (Num 0)) visited.
Definition stopC : Stop := sampleStop "C" "12:00" None planned.
Definition stopD : Stop := sampleStop "D" "10:00" (Some (Num 2500)) skipped.

Definition fourStops : list Stop := [stopA; stopB; stopC; stopD].

(* ================================================================== *)
(** ** The tips, the cards and the buttons ([App], continued) *)
(* ================================================================== *)

(** *** [generateTips] *)

(** The three fixed texts of [generateTips]: for an empty list, for a
    response without text, and for a failed call. *)
Definition tipsPlaceholder : string :=
  "Tambahkan beberapa tujuan untuk mendapatkan tips perjalanan pintar dari Google!".

Definition tipsDefault : string :=
  "Gunakan Google Maps untuk navigasi terbaik dan cek ulasan tempat sebelum berkunjung.".

Definition tipsFallback : string :=
  "Gunakan Google Maps untuk informasi lalu lintas dan jam operasional terbaru.".

(** [currentStops.map(s => `${s.title} (${s.address})`).join(', ')] *)
Definition stopNames (currentStops : list Stop) : string :=
  String.concat ", "
    (map (fun s => String.append (title s)
                     (String.append " (" (String.append (address s) ")")))
         currentStops).

(** The [contents] of the request. *)
Definition contents (names : string) : string :=
  String.append "Saya sedang merencanakan perjalanan ke: "
    (String.append names
       ". Gunakan Google Search untuk memberikan 3 tips perjalanan yang sangat spesifik, akurat, dan terbaru (seperti info cuaca, keramaian, atau tips parkir) dalam Bahasa Indonesia. Gunakan format poin-poin singkat.").

(** The tips side of the component: the three pieces of state
    [generateTips] writes, and its traffic with the text service, namely
    the [contents] of the calls to [generateContent] made so far (latest
    first) and the number of calls whose promise has not settled yet. *)
Record Tips : Type := mkTips {
  aiTips : string;
  isLoadingTips : bool;
  hasNewTips : bool;
  requests : list string;
  pending : nat
}.

(** How a call to [generateContent] ends: a response with its optional
    [text], or a rejection. *)
Inductive Outcome : Type :=
| Resolved (text : option string)
| Rejected.

(** [response.text || tipsDefault]: an absent and an empty text are
    falsy. *)
Definition textOr (text : option string) (fallback : string) : string :=
  match text with
  | Some EmptyString => fallback
  | Some t => t
  | None => fallback
  end.

(** [generateTips(currentStops)] up to its [await]: the early return for
    the empty list, otherwise the loading flag and the request. *)
Definition generateTips (currentStops : list Stop) (t : Tips) : Tips :=
  match currentStops with
  | [] =>
      {| aiTips := tipsPlaceholder; isLoadingTips := isLoadingTips t;
         hasNewTips := hasNewTips t; requests := requests t;
         pending := pending t |}
  | _ =>
      {| aiTips := aiTips t; isLoadingTips := true;
         hasNewTips := hasNewTips t;
         requests := contents (stopNames currentStops) :: requests t;
         pending := S (pending t) |}
  end.

(** The rest of [generateTips], run when the promise of a call settles:
    the end of the [try] block or the [catch] block, then [finally]. *)
Definition generateTips_resume (o : Outcome) (t : Tips) : Tips :=
  match o with
  | Resolved text =>
      {| aiTips := textOr text tipsDefault; isLoadingTips := false;
         hasNewTips := true; requests := requests t;
         pending := Nat.pred (pending t) |}
  | Rejected =>
      {| aiTips := tipsFallback; isLoadingTips := false;
         hasNewTips := hasNewTips t; requests := requests t;
         pending := Nat.pred (pending t) |}
  end.

(** The state of [useState] before any effect ran. *)
Definition initialTips : Tips :=
  {| aiTips := ""; isLoadingTips := false; hasNewTips := false;
     requests := []; pending := 0%nat |}.


(** *** The cost line of a card *)

(** What React shows for a child expression: nothing (for [undefined] and
    [false]), a number as text, or the element with the amount. *)
Inductive Child : Type :=
| NoChild
| NumberText (n : number)
| CostElement (n : number).

(** [{stop.cost && stop.cost > 0 && (<div>...</div>)}]: [&&] yields its
    left operand when that is falsy. *)
Definition costChild (c : option number) : Child :=
  match c with
  | None => NoChild
  | Some n =>
      if truthy n then (if gtZero n then CostElement n else NoChild)
      else NumberText n
  end.

Definition number_eqb (a b : number) : bool :=
  match a, b with
  | NaN, NaN => true
  | Num x, Num y => x =? y
  | _, _ => false
  end.

Section AppModel.
Context {builtins : Builtins}.



(** The stops that share their instant with [t]. *)
Definition atTime (t : number) (l : list Stop) : list Stop :=
  filter (fun s => number_eqb (timeOf s) t) l.

(** [const isActive = stop.id === nextStop?.id], the highlight of the
    route tracker; the comparison with [undefined] is false. *)
Definition isActive (current : list Stop) (stop : Stop) : bool :=
  match nextStop current with
  | Some next => String.eqb (id stop) (id next)
  | None => false
  end.

(** *** The buttons *)

(** One click on a control that the render offers for the current
    [stops] and that changes them: the two status buttons on the card of
    [nextStop], the button of an entry of the skipped list, the buttons of
    a timeline card (the status buttons are shown according to the status
    of its stop), and the submit of the add form, whose id
    [crypto.randomUUID()] makes fresh. *)
Inductive click : World -> World -> Prop :=
| click_finish_next w s :
    nextStop (stops w) = Some s ->
    click w (toggleStatus (id s) None w)
| click_skip_next w s :
    nextStop (stops w) = Some s ->
    click w (toggleStatus (id s) (Some skipped) w)
| click_activate w s :
    In s (skippedStops (stops w)) ->
    click w (toggleStatus (id s) (Some planned) w)
| click_card_done w s :
    In s (sortedStops (stops w)) -> status s <> visited ->
    click w (toggleStatus (id s) (Some visited) w)
| click_card_reactivate w s :
    In s (sortedStops (stops w)) -> status s = skipped ->
    click w (toggleStatus (id s) (Some planned) w)
| click_card_skip w s :
    In s (sortedStops (stops w)) -> status s = planned ->
    click w (toggleStatus (id s) (Some skipped) w)
| click_card_delete w s :
    In s (sortedStops (stops w)) ->
    click w (deleteStop (id s) w)
| click_submit w uuid formData :
    (forall s, In s (stops w) -> id s <> uuid) ->
    click w (addStop uuid formData w).

(** The stop [s] is in the collection of [w'] as the same record, or no
    stop of [w'] carries its id. *)
Definition unchangedOrGone (s : Stop) (w' : World) : Prop :=
  In s (stops w') \/ forall s', In s' (stops w') -> id s' <> id s.

(** Any number of clicks after each of which some stop still carries the
    id [id0]: the stop with that id was neither deleted nor wiped by a
    reset on the way. *)
Inductive clicksKeeping (id0 : string) : World -> World -> Prop :=
| keeping_none w : clicksKeeping id0 w w
| keeping_more w w' w'' :
    clicksKeeping id0 w w' -> click w' w'' ->
    (exists s, In s (stops w'') /\ id s = id0) ->
    clicksKeeping id0 w w''.
End AppModel.

(** *** More sample data *)

(** A form for the instant the early sample stop already has. *)
Definition tieForm : FormData := sampleForm "Kopi" "2024-05-01" "07:00" "12000".

(** The four sample stops as the collection of a world at rest. *)
Definition fourStopsWorld : World :=
  {| stops := fourStops; storage := Some fourStops; alerts := 0%nat |}.

(** The two sample stops with the early one visited. *)
Definition visitedWorld : World :=
  toggleStatus "id-b" (Some visited) twoStopsWorld.

Definition visitedStop : Stop := withStatus earlyStop visited.


(** Three calls for the night of the spring transition in New York. *)
Definition skippedHourCall : string * FormData :=
  ("id-x", sampleForm "Bandara JFK" "2024-03-10" "02:30" "").
Definition halfPastThreeCall : string * FormData :=
  ("id-y", sampleForm "Terminal" "2024-03-10" "03:30" "").
Definition threeCall : string * FormData :=
  ("id-z", sampleForm "Parkir" "2024-03-10" "03:00" "").

(** Three stops two of which share 07:00, the later-made one first. *)
Definition tieStop : Stop := @newStop formBuiltins "id-c" tieForm 2.
Definition tieStops : list Stop := [lateStop; tieStop; earlyStop].


(* ================================================================== *)
(** ** Facts about [Array_sort] *)
(* ================================================================== *)

Section ArraySortFacts.
Variable A : Type.
Variable comparefn : A -> A -> number.

Lemma insert_perm (x : A) (l : list A) :
  Permutation (insert comparefn x l) (x :: l).
Proof.
  induction l as [|y l IH]; simpl.
  - apply Permutation_refl.
  - destruct (0 <? sortCompare comparefn x y).
    + apply perm_trans with (y :: x :: l).
      * now apply perm_skip.
      * apply perm_swap.
    + apply Permutation_refl.
Qed.

Lemma Array_sort_perm (l : list A) :
  Permutation (Array_sort comparefn l) l.
Proof.
  induction l as [|x l IH]; simpl.
  - apply perm_nil.
  - eapply perm_trans; [apply insert_perm|]. now apply perm_skip.
Qed.

Lemma Array_sort_length (l : list A) :
  List.length (Array_sort comparefn l) = List.length l.
Proof. apply Permutation_length, Array_sort_perm. Qed.

Lemma Array_sort_In (x : A) (l : list A) :
  In x (Array_sort comparefn l) <-> In x l.
Proof.
  split; apply Permutation_in;
    [|apply Permutation_sym]; apply Array_sort_perm.
Qed.

(** An element that is not greater than the head stays in front. *)
Lemma insert_front (x : A) (l : list A) :
  HdRel (fun a b => sortCompare comparefn a b <= 0) x l ->
  insert comparefn x l = x :: l.
Proof.
  destruct 1 as [|y l Hxy]; simpl; [reflexivity|].
  destruct (Z.ltb_spec 0 (sortCompare comparefn x y)); [lia|reflexivity].
Qed.

(** Sorting leaves alone an array none of whose elements is greater than
    its successor. *)
Lemma Array_sort_sorted_id (l : list A) :
  Sorted (fun a b => sortCompare comparefn a b <= 0) l ->
  Array_sort comparefn l = l.
Proof.
  induction 1 as [|x l Hl IH Hx]; simpl; [reflexivity|].
  rewrite IH. now apply insert_front.
Qed.

(** Appending to an array and sorting inserts the new element into the
    array sorted alone. *)
Lemma Array_sort_app_one (l : list A) (x : A) :
  Permutation (Array_sort comparefn (l ++ [x])) (x :: l).
Proof.
  eapply perm_trans; [apply Array_sort_perm|].
  apply Permutation_sym, Permutation_cons_append.
Qed.
End ArraySortFacts.

(** Two lists sorted strictly by the same order that hold the same
    elements are the same list. *)
Lemma strictly_sorted_unique (A : Type) (R : A -> A -> Prop)
    (Hasym : forall a b, R a b -> R b a -> False) (l1 l2 : list A) :
  StronglySorted R l1 -> StronglySorted R l2 -> Permutation l1 l2 ->
  l1 = l2.
Proof.
  intros H1; revert l2.
  induction H1 as [|x l1 Hl1 IH Hx]; intros l2 H2 Hp.
  - now apply Permutation_nil in Hp.
  - destruct H2 as [|y l2 Hl2 Hy].
    + apply Permutation_sym, Permutation_nil in Hp. discriminate.
    + assert (x = y) as ->.
      { assert (In x (y :: l2)) as Hxin
          by (eapply Permutation_in; [exact Hp|now left]).
        assert (In y (x :: l1)) as Hyin
          by (eapply Permutation_in; [apply Permutation_sym, Hp|now left]).
        destruct Hxin as [->|Hxin]; [reflexivity|].
        destruct Hyin as [->|Hyin]; [reflexivity|].
        rewrite Forall_forall in Hx, Hy.
        exfalso. eapply Hasym; [apply Hx, Hyin|apply Hy, Hxin]. }
      f_equal. apply IH; [assumption|].
      eapply Permutation_cons_inv, Hp.
Qed.

(* ================================================================== *)
(** ** The comparator on stops whose dates are valid *)
(* ================================================================== *)

Section ComparatorFacts.
Context {builtins : Builtins}.

Lemma validTime_Num (s : Stop) :
  validTime s <-> exists t, timeOf s = Num t.
Proof.
  unfold validTime. destruct (timeOf s) as [|t].
  - split; [congruence|]. intros [t Ht]. discriminate.
  - split; [eauto|congruence].
Qed.

Lemma compareAsc_Num (x y : Z) :
  compareAsc (Num x) (Num y)
  = Num (if x <? y then -1 else if y <? x then 1 else 0).
Proof.
  unfold compareAsc; simpl.
  destruct (Z.ltb_spec (x - y) 0), (Z.ltb_spec x y); try lia;
    try reflexivity.
  destruct (Z.ltb_spec 0 (x - y)), (Z.ltb_spec y x); try lia;
    try reflexivity.
  f_equal; lia.
Qed.

Lemma sortCompare_byDateTime (a b : Stop) (x y : Z) :
  timeOf a = Num x -> timeOf b = Num y ->
  sortCompare byDateTime a b
  = if x <? y then -1 else if y <? x then 1 else 0.
Proof.
  unfold sortCompare, byDateTime, timeOf. intros -> ->.
  now rewrite compareAsc_Num.
Qed.

Lemma chron_sortCompare (a b : Stop) :
  chron a b -> sortCompare byDateTime a b <= 0.
Proof.
  unfold chron.
  destruct (timeOf a) as [|x] eqn:Ha; [tauto|].
  destruct (timeOf b) as [|y] eqn:Hb; [tauto|].
  intros Hxy. rewrite (sortCompare_byDateTime _ _ Ha Hb).
  destruct (Z.ltb_spec x y); [lia|].
  destruct (Z.ltb_spec y x); lia.
Qed.

Lemma chron_trans (a b c : Stop) : chron a b -> chron b c -> chron a c.
Proof.
  unfold chron.
  destruct (timeOf a), (timeOf b), (timeOf c); try tauto. lia.
Qed.

Lemma earlier_asym (a b : Stop) : earlier a b -> earlier b a -> False.
Proof.
  unfold earlier. destruct (timeOf a), (timeOf b); try tauto. lia.
Qed.

Lemma insert_chron (x : Stop) (l : list Stop) :
  validTime x -> Forall validTime l -> StronglySorted chron l ->
  StronglySorted chron (insert byDateTime x l).
Proof.
  intros Hx Hv Hs. apply validTime_Num in Hx as [tx Htx].
  induction Hs as [|y l Hl IH Hy]; simpl.
  - constructor; constructor.
  - inversion Hv as [|? ? Hvy Hvl]; subst.
    apply validTime_Num in Hvy as [ty Hty].
    rewrite (sortCompare_byDateTime _ _ Htx Hty).
    assert (forall z, In z l -> chron y z) as Hy'
      by (now apply Forall_forall).
    destruct (Z.ltb_spec tx ty) as [Hlt|Hge]; simpl.
    + constructor; [now constructor|].
      constructor.
      * unfold chron. rewrite Htx, Hty. lia.
      * apply Forall_forall. intros z Hz.
        apply chron_trans with y; [|now apply Hy'].
        unfold chron. rewrite Htx, Hty. lia.
    + destruct (Z.ltb_spec ty tx) as [Hgt|Hle]; simpl.
      * constructor; [now apply IH|].
        apply Forall_forall. intros z Hz.
        apply (Permutation_in _ (insert_perm byDateTime x l)) in Hz.
        destruct Hz as [<-|Hz]; [|now apply Hy'].
        unfold chron. rewrite Htx, Hty. lia.
      * constructor; [now constructor|].
        constructor.
        -- unfold chron. rewrite Htx, Hty. lia.
        -- apply Forall_forall. intros z Hz.
           apply chron_trans with y; [|now apply Hy'].
           unfold chron. rewrite Htx, Hty. lia.
Qed.
End ComparatorFacts.

Section SortedStopsFacts.
Context {builtins : Builtins}.

Lemma Array_sort_valid (l : list Stop) :
  Forall validTime l -> Forall validTime (Array_sort byDateTime l).
Proof.
  intros H. eapply Permutation_Forall; [|exact H].
  apply Permutation_sym, Array_sort_perm.
Qed.

Lemma Array_sort_chron (l : list Stop) :
  Forall validTime l -> StronglySorted chron (Array_sort byDateTime l).
Proof.
  induction 1 as [|x l Hx Hl IH]; simpl.
  - constructor.
  - apply insert_chron; [assumption| |assumption].
    now apply Array_sort_valid.
Qed.

(** A chronological array is a fixed point of the sort. *)
Lemma Array_sort_chron_id (l : list Stop) :
  StronglySorted chron l -> Array_sort byDateTime l = l.
Proof.
  intros H. apply Array_sort_sorted_id.
  apply StronglySorted_Sorted in H.
  induction H as [|x l Hl IH Hx]; constructor; [assumption|].
  destruct Hx; constructor. now apply chron_sortCompare.
Qed.

Lemma chron_earlier (l : list Stop) :
  StronglySorted chron l -> NoDup (map timeOf l) ->
  StronglySorted earlier l.
Proof.
  induction 1 as [|x l Hl IH Hx]; intros Hnd; [constructor|].
  simpl in Hnd. inversion Hnd as [|? ? Hnotin Hnd']; subst.
  constructor; [now apply IH|].
  rewrite Forall_forall in *. intros y Hy.
  specialize (Hx y Hy). unfold chron, earlier in *.
  destruct (timeOf x) as [|tx] eqn:Ex; [tauto|].
  destruct (timeOf y) as [|ty] eqn:Ey; [tauto|].
  assert (tx <> ty); [|lia].
  intros ->. apply Hnotin. rewrite <- Ey. now apply in_map.
Qed.

Lemma earlier_forgetOrder (l : list Stop) :
  StronglySorted earlier l -> StronglySorted earlier (map forgetOrder l).
Proof.
  induction 1 as [|x l Hl IH Hx]; simpl; constructor; [assumption|].
  rewrite Forall_forall in *. intros y' Hy'.
  apply in_map_iff in Hy' as [y [<- Hy]]. exact (Hx y Hy).
Qed.
End SortedStopsFacts.

(* ================================================================== *)
(** ** The state update and its effect *)
(* ================================================================== *)

Section WorldFacts.
Context {builtins : Builtins}.

Lemma setStops_within (next : list Stop) (w : World) :
  (List.length next <= 10)%nat ->
  setStops next w
  = {| stops := next; storage := Some next; alerts := alerts w |}.
Proof.
  intros H. unfold setStops, render, saveResetEffect; simpl.
  destruct (Nat.ltb_spec 10 (List.length next)); [lia|reflexivity].
Qed.

Lemma setStops_beyond (next : list Stop) (w : World) :
  (10 < List.length next)%nat ->
  setStops next w
  = {| stops := []; storage := Some []; alerts := S (alerts w) |}.
Proof.
  intros H. unfold setStops, render, saveResetEffect; simpl.
  destruct (Nat.ltb_spec 10 (List.length next)); [reflexivity|lia].
Qed.

(** Rendering is quiescent after two rounds: more fuel changes nothing. *)
Lemma render_fuel (fuel : nat) (next : list Stop) (w : World) :
  (2 <= fuel)%nat -> render fuel next w = setStops next w.
Proof.
  intros H. destruct fuel as [|[|fuel]]; try lia.
  unfold setStops. simpl. unfold saveResetEffect; simpl.
  destruct (10 <? List.length next)%nat; [|reflexivity].
  destruct fuel; reflexivity.
Qed.

Lemma setStops_settled (next : list Stop) (w : World) :
  settled (setStops next w).
Proof.
  destruct (Nat.ltb_spec 10 (List.length next)).
  - rewrite setStops_beyond by assumption. split; simpl; [lia|reflexivity].
  - rewrite setStops_within by assumption. split; simpl; [lia|reflexivity].
Qed.

Lemma setStops_same (w : World) : settled w -> setStops (stops w) w = w.
Proof.
  intros [Hlen Hsto]. rewrite setStops_within by assumption.
  destruct w as [l sto n]; simpl in *. now subst.
Qed.

Lemma updatedStops_length (uuid : string) (formData : FormData)
    (l : list Stop) :
  List.length (updatedStops uuid formData l) = S (List.length l).
Proof.
  unfold updatedStops. rewrite Array_sort_length, length_app. simpl. lia.
Qed.

Lemma updatedStops_perm (uuid : string) (formData : FormData)
    (l : list Stop) :
  Permutation (updatedStops uuid formData l)
              (newStop uuid formData (List.length l) :: l).
Proof. apply Array_sort_app_one. Qed.

Lemma stops_addStop (uuid : string) (formData : FormData) (w : World) :
  (List.length (stops w) < 10)%nat ->
  stops (addStop uuid formData w) = updatedStops uuid formData (stops w).
Proof.
  intros H. unfold addStop. rewrite setStops_within; [reflexivity|].
  rewrite updatedStops_length. lia.
Qed.

Lemma toggled_length (id0 : string) (f : option StopStatus)
    (l : list Stop) :
  List.length (toggled id0 f l) = List.length l.
Proof. apply length_map. Qed.

Lemma stops_toggleStatus (id0 : string) (f : option StopStatus)
    (w : World) :
  (List.length (stops w) <= 10)%nat ->
  stops (toggleStatus id0 f w) = toggled id0 f (stops w).
Proof.
  intros H. unfold toggleStatus.
  rewrite setStops_within; [reflexivity|]. now rewrite toggled_length.
Qed.

Lemma filter_length_le (A : Type) (p : A -> bool) (l : list A) :
  (List.length (filter p l) <= List.length l)%nat.
Proof.
  induction l as [|x l IH]; simpl; [lia|].
  destruct (p x); simpl; lia.
Qed.

Lemma stops_deleteStop (id0 : string) (w : World) :
  (List.length (stops w) <= 10)%nat ->
  stops (deleteStop id0 w)
  = filter (fun s => negb (String.eqb (id s) id0)) (stops w).
Proof.
  intros H. unfold deleteStop. rewrite setStops_within; [reflexivity|].
  eapply Nat.le_trans; [apply filter_length_le|exact H].
Qed.
End WorldFacts.

(* ================================================================== *)
(** ** Status toggling and deletion *)
(* ================================================================== *)

Section MutatorFacts.
Context {builtins : Builtins}.

Lemma withStatus_same (s : Stop) : withStatus s (status s) = s.
Proof. now destruct s. Qed.

Lemma toggled_other (id0 : string) (f : option StopStatus)
    (l : list Stop) :
  (forall s, In s l -> id s <> id0) -> toggled id0 f l = l.
Proof.
  intros H. unfold toggled. rewrite <- (map_id l) at 2.
  apply map_ext_in. intros s Hs.
  destruct (String.eqb_spec (id s) id0) as [E|_]; [|reflexivity].
  now apply H in Hs.
Qed.

Lemma filter_other (id0 : string) (l : list Stop) :
  (forall s, In s l -> id s <> id0) ->
  filter (fun s => negb (String.eqb (id s) id0)) l = l.
Proof.
  induction l as [|x l IH]; intros H; simpl; [reflexivity|].
  destruct (String.eqb_spec (id x) id0) as [E|_]; simpl.
  - exfalso. apply (H x); [now left|exact E].
  - f_equal. apply IH. intros s Hs. apply H. now right.
Qed.

Lemma toggled_forced_twice (id0 : string) (f : StopStatus)
    (l : list Stop) :
  toggled id0 (Some f) (toggled id0 (Some f) l) = toggled id0 (Some f) l.
Proof.
  unfold toggled. rewrite map_map. apply map_ext. intros s.
  destruct (String.eqb (id s) id0) eqn:E; simpl; rewrite E; reflexivity.
Qed.

(** C3.  For a stop at position [i] of a collection within the cap,
    [toggleStatus] on its id without a forced status leaves a stop at
    position [i] whose status is [planned] if it was [visited] and
    [visited] if it was [planned] or [skipped], and whose other fields
    are those of the stop before; starting from [planned], a second
    unforced toggle gives back the original stop. *)
Theorem toggleStatus_unforced (w : World) (i : nat) (s : Stop) :
  (List.length (stops w) <= 10)%nat ->
  nth_error (stops w) i = Some s ->
  let w1 := toggleStatus (id s) None w in
  (exists s',
      nth_error (stops w1) i = Some s'
      /\ status s' = flipStatus (status s)
      /\ (status s = visited -> status s' = planned)
      /\ (status s = planned -> status s' = visited)
      /\ (status s = skipped -> status s' = visited)
      /\ id s' = id s /\ title s' = title s /\ address s' = address s
      /\ dateTime s' = dateTime s /\ notes s' = notes s
      /\ cost s' = cost s /\ order s' = order s)
  /\ flipStatus visited = planned
  /\ flipStatus planned = visited
  /\ flipStatus skipped = visited
  /\ (status s = planned ->
      nth_error (stops (toggleStatus (id s) None w1)) i = Some s).
Proof.
  intros Hlen Hi w1.
  assert (nth_error (stops w1) i
          = Some (withStatus s (flipStatus (status s)))) as H1.
  { unfold w1. rewrite stops_toggleStatus by assumption.
    unfold toggled. rewrite nth_error_map, Hi. simpl.
    rewrite String.eqb_refl. now destruct (status s). }
  split.
  { exists (withStatus s (flipStatus (status s))).
    split; [exact H1|]. simpl.
    split; [reflexivity|].
    repeat split; intros ->; reflexivity. }
  repeat split.
  intros Hp.
  assert (List.length (stops w1) <= 10)%nat as Hlen1.
  { unfold w1. rewrite stops_toggleStatus by assumption.
    now rewrite toggled_length. }
  rewrite stops_toggleStatus by assumption.
  unfold toggled. rewrite nth_error_map, H1. simpl.
  rewrite String.eqb_refl, Hp. simpl.
  f_equal. destruct s; simpl in *. now subst.
Qed.

(** C7.  On an id that no stop carries, [toggleStatus] (with or without
    a forced status) and [deleteStop] leave a collection within the cap as
    it is; in a world at rest they return the world itself: same
    collection, same storage, no alert.  Both are total functions, so
    nothing is raised. *)
Theorem unknown_id_ignored (w : World) (id0 : string)
    (forceStatus : option StopStatus) :
  (List.length (stops w) <= 10)%nat ->
  (forall s, In s (stops w) -> id s <> id0) ->
  stops (toggleStatus id0 forceStatus w) = stops w
  /\ stops (deleteStop id0 w) = stops w
  /\ (settled w ->
      toggleStatus id0 forceStatus w = w /\ deleteStop id0 w = w).
Proof.
  intros Hlen Hid.
  split; [|split].
  - rewrite stops_toggleStatus by assumption. now apply toggled_other.
  - rewrite stops_deleteStop by assumption. now apply filter_other.
  - intros Hw. unfold toggleStatus, deleteStop.
    rewrite toggled_other, filter_other by assumption.
    split; now apply setStops_same.
Qed.

(** C8.  Forcing the status ['visited'] twice on the same id gives
    exactly the world that forcing it once gives, whatever the world and
    the id; the same holds for every forced status. *)
Theorem toggleStatus_visited_idempotent (w : World) (id0 : string) :
  toggleStatus id0 (Some visited) (toggleStatus id0 (Some visited) w)
  = toggleStatus id0 (Some visited) w
  /\ forall f,
       toggleStatus id0 (Some f) (toggleStatus id0 (Some f) w)
       = toggleStatus id0 (Some f) w.
Proof.
  assert (forall f,
             toggleStatus id0 (Some f) (toggleStatus id0 (Some f) w)
             = toggleStatus id0 (Some f) w) as Hall.
  { intros f.
    destruct (Nat.ltb_spec 10 (List.length (stops w))) as [Hgt|Hle].
    - assert (toggleStatus id0 (Some f) w
              = {| stops := []; storage := Some [];
                   alerts := S (alerts w) |}) as ->
        by (apply setStops_beyond; now rewrite toggled_length).
      unfold toggleStatus. rewrite setStops_within by (simpl; lia).
      reflexivity.
    - assert (toggleStatus id0 (Some f) w
              = {| stops := toggled id0 (Some f) (stops w);
                   storage := Some (toggled id0 (Some f) (stops w));
                   alerts := alerts w |}) as ->
        by (apply setStops_within; now rewrite toggled_length).
      unfold toggleStatus. simpl stops. rewrite toggled_forced_twice.
      rewrite setStops_within by (now rewrite toggled_length).
      reflexivity. }
  split; [apply Hall|exact Hall].
Qed.

(** C9.  In a collection within the cap whose ids are pairwise distinct,
    [deleteStop] on the id of a stop [x] yields the collection without
    [x]: the stops before and after it are the very same records, in the
    same sequence, so no field of theirs, [order] included, changes. *)
Theorem deleteStop_removes_only (w : World) (before after : list Stop)
    (x : Stop) :
  (List.length (stops w) <= 10)%nat ->
  NoDup (map id (stops w)) ->
  stops w = before ++ x :: after ->
  stops (deleteStop (id x) w) = before ++ after.
Proof.
  intros Hlen Hnd Hw. rewrite stops_deleteStop by assumption.
  rewrite Hw in *. rewrite map_app in Hnd. simpl in Hnd.
  apply NoDup_remove_2 in Hnd.
  rewrite filter_app. simpl. rewrite String.eqb_refl. simpl.
  rewrite !filter_other; [reflexivity| |].
  - intros s Hs E. apply Hnd, in_or_app. right.
    rewrite <- E. now apply in_map.
  - intros s Hs E. apply Hnd, in_or_app. left.
    rewrite <- E. now apply in_map.
Qed.
End MutatorFacts.

(* ================================================================== *)
(** ** Derived views *)
(* ================================================================== *)

Section ViewFacts.
Context {builtins : Builtins}.

Lemma optOrZero_costValue (s : Stop) :
  optOrZero (cost s) = Num (costValue s).
Proof.
  unfold optOrZero, costValue, orZero, truthy.
  destruct (cost s) as [[|z]|]; try reflexivity.
  destruct (Z.eqb_spec z 0) as [->|_]; reflexivity.
Qed.

Lemma reduce_cost (l : list Stop) (acc : Z) :
  fold_left (fun a stop => add a (optOrZero (cost stop))) l (Num acc)
  = Num (acc + sumZ (map costValue l)).
Proof.
  revert acc. induction l as [|s l IH]; intros acc; simpl.
  - f_equal. lia.
  - rewrite optOrZero_costValue. simpl. rewrite IH. f_equal. lia.
Qed.

Lemma totalCost_sumZ (l : list Stop) :
  totalCost l = Num (sumZ (map costValue l)).
Proof. unfold totalCost. now rewrite reduce_cost. Qed.

Lemma sumZ_abs (l : list Z) : Z.abs (sumZ l) <= sumZ (map Z.abs l).
Proof. induction l as [|z l IH]; simpl; lia. Qed.

(** C5.  For a collection whose costs stay within the safe integers
    ([safeCosts]: integer costs whose absolute values total at most
    2^53 - 1, so that no addition of the reduce rounds), [totalCost] is
    the sum over all stops of the stop's cost, an absent cost counting as
    [0], and is itself a safe integer.  The status of the stops plays no
    part: changing statuses in any way leaves the total unchanged.  For
    stops with costs [1000, 0, undefined, 2500] the total is [3500]. *)
Theorem totalCost_sums_all (l : list Stop) :
  (safeCosts l ->
   totalCost l = Num (sumZ (map costValue l))
   /\ Z.abs (sumZ (map costValue l)) <= maxSafeInteger)
  /\ (forall s, cost s = None -> costValue s = 0)
  /\ (forall s z, cost s = Some (Num z) -> costValue s = z)
  /\ (forall f : Stop -> StopStatus,
        totalCost (map (fun s => withStatus s (f s)) l) = totalCost l)
  /\ (map cost l = [Some (Num 1000); Some (Num 0); None; Some (Num 2500)]
      -> safeCosts l /\ totalCost l = Num 3500).
Proof.
  assert (forall m : list Stop,
             map costValue m
             = map (fun c => match c with Some (Num z) => z | _ => 0 end)
                   (map cost m)) as Hcost
    by (intros m; rewrite map_map; reflexivity).
  split.
  { intros Hsafe. split; [apply totalCost_sumZ|].
    unfold safeCosts in Hsafe.
    eapply Z.le_trans; [apply sumZ_abs|].
    now rewrite map_map. }
  split; [intros s H; unfold costValue; now rewrite H|].
  split; [intros s z H; unfold costValue; now rewrite H|].
  split.
  - intros f. rewrite !totalCost_sumZ, map_map. reflexivity.
  - intros H. split.
    + unfold safeCosts. rewrite <- (map_map costValue Z.abs).
      rewrite Hcost, H. vm_compute. discriminate.
    + rewrite totalCost_sumZ, Hcost, H. reflexivity.
Qed.

Lemma find_first (A : Type) (p : A -> bool) (l : list A) (x : A) :
  find p l = Some x <->
  exists before after,
    l = before ++ x :: after /\ p x = true
    /\ Forall (fun y => p y = false) before.
Proof.
  induction l as [|y l IH]; simpl.
  - split; [discriminate|].
    intros (before & after & H & _). now destruct before.
  - destruct (p y) eqn:Ey.
    + split.
      * intros [= ->]. exists [], l. repeat split; auto.
      * intros (before & after & H & Hx & Hb).
        destruct before as [|b before]; simpl in H.
        -- now injection H as -> _.
        -- injection H as -> _. inversion Hb; congruence.
    + rewrite IH. split.
      * intros (before & after & -> & Hx & Hb).
        exists (y :: before), after. repeat split; auto.
      * intros (before & after & H & Hx & Hb).
        destruct before as [|b before]; simpl in H.
        -- injection H as -> _. congruence.
        -- injection H as -> ->. inversion Hb; subst.
           exists before, after. repeat split; auto.
Qed.

Lemma find_none_iff (A : Type) (p : A -> bool) (l : list A) :
  find p l = None <-> Forall (fun y => p y = false) l.
Proof.
  induction l as [|y l IH]; simpl.
  - split; auto.
  - destruct (p y) eqn:Ey.
    + split; [discriminate|]. inversion 1; congruence.
    + rewrite IH. split; [now constructor|now inversion 1].
Qed.

Lemma planned_false (s : Stop) :
  StopStatus_eqb (status s) planned = false <-> status s <> planned.
Proof. destruct (status s); simpl; split; congruence. Qed.

Lemma planned_true (s : Stop) :
  StopStatus_eqb (status s) planned = true <-> status s = planned.
Proof. destruct (status s); simpl; split; congruence. Qed.

(** C6.  [nextStop] is the first element of [sortedStops] whose status
    is ['planned']: everything in front of it in chronological order is
    ['visited'] or ['skipped'].  It is undefined exactly when no stop of
    the collection is ['planned'].  With statuses
    [visited, skipped, planned, planned] in chronological order it is
    the third stop. *)
Theorem nextStop_first_planned (l : list Stop) :
  (forall s,
      nextStop l = Some s <->
      exists before after,
        sortedStops l = before ++ s :: after
        /\ status s = planned
        /\ Forall (fun r => status r = visited \/ status r = skipped)
                  before)
  /\ (nextStop l = None <-> Forall (fun s => status s <> planned) l)
  /\ (forall a b c d,
        sortedStops l = [a; b; c; d] ->
        status a = visited -> status b = skipped ->
        status c = planned -> status d = planned ->
        nextStop l = Some c).
Proof.
  assert (forall s,
      nextStop l = Some s <->
      exists before after,
        sortedStops l = before ++ s :: after
        /\ status s = planned
        /\ Forall (fun r => status r = visited \/ status r = skipped)
                  before) as Hfirst.
  { intros s. unfold nextStop. rewrite find_first.
    split; intros (before & after & H & Hs & Hb);
      exists before, after; (split; [exact H|]);
      (split; [now apply planned_true|]).
    - eapply Forall_impl; [|exact Hb]. intros r Hr.
      apply planned_false in Hr. destruct (status r); auto; congruence.
    - eapply Forall_impl; [|exact Hb]. intros r Hr.
      apply planned_false. destruct Hr; congruence. }
  split; [exact Hfirst|]. split.
  - unfold nextStop. rewrite find_none_iff. split; intros H.
    + eapply Permutation_Forall; [apply Array_sort_perm|].
      eapply Forall_impl; [|exact H]. intros s. apply planned_false.
    + eapply Permutation_Forall;
        [apply Permutation_sym, Array_sort_perm|].
      eapply Forall_impl; [|exact H]. intros s. apply planned_false.
  - intros a b c d H Ha Hb Hc Hd. apply Hfirst.
    exists [a; b], [d]. split; [exact H|]. split; [exact Hc|].
    constructor; [now left|]. constructor; [now right|]. constructor.
Qed.
End ViewFacts.

(* ================================================================== *)
(** ** Adding a stop *)
(* ================================================================== *)

Section AddFacts.
Context {builtins : Builtins}.

Lemma newStop_In_updatedStops (uuid : string) (formData : FormData)
    (l : list Stop) :
  In (newStop uuid formData (List.length l)) (updatedStops uuid formData l).
Proof.
  apply (Permutation_in _ (Permutation_sym (updatedStops_perm _ _ _))).
  now left.
Qed.

(** C4, as the store has it.  The cost of the created stop is always
    present and never [NaN]: when [Number] gives [NaN] for the text of
    the cost field it is [0], otherwise it is the value [Number] gives,
    whatever its sign.  The created stop is always part of the array that
    [addStop] commits, and of the resulting collection when that stays
    within the cap: no cost text makes the call fail. *)
Theorem addStop_cost_coerced (uuid : string) (formData : FormData)
    (w : World) :
  let s := newStop uuid formData (List.length (stops w)) in
  cost s = Some (match Number (get_cost formData) with
                 | NaN => Num 0
                 | Num z => Num z
                 end)
  /\ cost s <> None
  /\ cost s <> Some NaN
  /\ In s (updatedStops uuid formData (stops w))
  /\ ((List.length (stops w) < 10)%nat ->
      In s (stops (addStop uuid formData w))).
Proof.
  intros s.
  assert (cost s = Some (match Number (get_cost formData) with
                         | NaN => Num 0
                         | Num z => Num z
                         end)) as Hc.
  { unfold s, newStop, orZero, truthy; simpl.
    destruct (Number (get_cost formData)) as [|z]; [reflexivity|].
    destruct (Z.eqb_spec z 0) as [->|_]; reflexivity. }
  split; [exact Hc|]. rewrite Hc.
  split; [discriminate|].
  split; [destruct (Number (get_cost formData)); discriminate|].
  split; [apply newStop_In_updatedStops|].
  intros Hlen. rewrite stops_addStop by assumption.
  apply newStop_In_updatedStops.
Qed.

End AddFacts.

(* ================================================================== *)
(** ** Runs of additions *)
(* ================================================================== *)

Section RunFacts.
Context {builtins : Builtins}.

Lemma map_timeOf_created (n : nat) (calls : list (string * FormData)) :
  map timeOf (created n calls) = map callTime calls.
Proof.
  revert n. induction calls as [|c calls IH]; intros n; simpl;
    [reflexivity|].
  now rewrite IH.
Qed.

Lemma map_forgetOrder_created (n : nat)
    (calls : list (string * FormData)) :
  map forgetOrder (created n calls)
  = map (fun c => forgetOrder (newStop (fst c) (snd c) 0)) calls.
Proof.
  revert n. induction calls as [|c calls IH]; intros n; simpl;
    [reflexivity|].
  now rewrite IH.
Qed.

Lemma created_valid (n : nat) (calls : list (string * FormData)) :
  Forall (fun c => callTime c <> NaN) calls ->
  Forall validTime (created n calls).
Proof.
  intros H. revert n.
  induction H as [|c calls Hc Hcalls IH]; intros n; simpl; constructor.
  - exact Hc.
  - apply IH.
Qed.

Lemma updatedStops_valid (uuid : string) (formData : FormData)
    (l : list Stop) :
  Forall validTime l ->
  validTime (newStop uuid formData (List.length l)) ->
  Forall validTime (updatedStops uuid formData l).
Proof.
  intros Hl Hs. apply Array_sort_valid, Forall_app. split; [exact Hl|].
  now constructor.
Qed.

Lemma updatedStops_chron (uuid : string) (formData : FormData)
    (l : list Stop) :
  Forall validTime l ->
  validTime (newStop uuid formData (List.length l)) ->
  StronglySorted chron (updatedStops uuid formData l).
Proof.
  intros Hl Hs. apply Array_sort_chron, Forall_app. split; [exact Hl|].
  now constructor.
Qed.

Lemma addStops_perm (calls : list (string * FormData)) (w : World) :
  (List.length (stops w) + List.length calls <= 10)%nat ->
  Permutation (stops (addStops calls w))
              (stops w ++ created (List.length (stops w)) calls).
Proof.
  revert w. induction calls as [|[uuid formData] calls IH]; intros w Hlen;
    simpl in *.
  - now rewrite app_nil_r.
  - assert (stops (addStop uuid formData w)
            = updatedStops uuid formData (stops w)) as Hs
      by (apply stops_addStop; lia).
    eapply perm_trans; [apply IH; rewrite Hs, updatedStops_length; lia|].
    rewrite Hs, updatedStops_length.
    eapply perm_trans;
      [apply Permutation_app_tail, updatedStops_perm|].
    simpl. apply Permutation_middle.
Qed.

Lemma addStops_chron (calls : list (string * FormData)) (w : World) :
  (List.length (stops w) + List.length calls <= 10)%nat ->
  Forall validTime (stops w) -> StronglySorted chron (stops w) ->
  Forall (fun c => callTime c <> NaN) calls ->
  StronglySorted chron (stops (addStops calls w)).
Proof.
  revert w. induction calls as [|[uuid formData] calls IH];
    intros w Hlen Hv Hs Hc; simpl in *; [exact Hs|].
  inversion Hc as [|? ? Hc1 Hc2]; subst.
  assert (stops (addStop uuid formData w)
          = updatedStops uuid formData (stops w)) as E
    by (apply stops_addStop; lia).
  apply IH; rewrite ?E, ?updatedStops_length; try assumption; try lia.
  - now apply updatedStops_valid.
  - now apply updatedStops_chron.
Qed.

(** What the view shows after a run of additions to the empty store. *)
Lemma addStops_view (calls : list (string * FormData)) :
  (List.length calls <= 10)%nat ->
  Forall (fun c => callTime c <> NaN) calls ->
  NoDup (map callTime calls) ->
  let view := sortedStops (stops (addStops calls initial)) in
  view = stops (addStops calls initial)
  /\ Permutation view (created 0 calls)
  /\ StronglySorted earlier view.
Proof.
  intros Hlen Hv Hnd view.
  assert (StronglySorted chron (stops (addStops calls initial))) as Hs
    by (apply addStops_chron; simpl; auto; constructor).
  assert (view = stops (addStops calls initial)) as E
    by (now apply Array_sort_chron_id).
  assert (Permutation view (created 0 calls)) as Hp
    by (rewrite E; apply (addStops_perm calls initial); simpl; lia).
  repeat split; try assumption.
  apply chron_earlier; [now rewrite E|].
  eapply Permutation_NoDup;
    [apply Permutation_sym, Permutation_map, Hp|].
  now rewrite map_timeOf_created.
Qed.

(** C2.  After any run of at most ten [addStop] calls on the empty store
    whose [dateTime]s denote pairwise distinct instants, [sortedStops] is
    the array of the created stops sorted by the comparator: it holds
    exactly the created stops, each strictly earlier than the next.  The
    sequence of the calls does not matter: a run of the same calls in
    another sequence shows the same stops in the same places (they
    differ at most in [order], which records the place in the run). *)
Theorem sortedStops_after_adds (calls : list (string * FormData)) :
  (List.length calls <= 10)%nat ->
  Forall (fun c => callTime c <> NaN) calls ->
  NoDup (map callTime calls) ->
  let view := sortedStops (stops (addStops calls initial)) in
  view = Array_sort byDateTime (created 0 calls)
  /\ Permutation view (created 0 calls)
  /\ StronglySorted earlier view
  /\ forall calls',
       Permutation calls calls' ->
       map forgetOrder (sortedStops (stops (addStops calls' initial)))
       = map forgetOrder view.
Proof.
  intros Hlen Hv Hnd view.
  destruct (addStops_view Hlen Hv Hnd) as (_ & Hp & Hs). fold view in Hp, Hs.
  split; [|split; [exact Hp|split; [exact Hs|]]].
  - apply (strictly_sorted_unique earlier_asym); [exact Hs| |].
    + apply chron_earlier.
      * now apply Array_sort_chron, created_valid.
      * eapply Permutation_NoDup;
          [apply Permutation_sym, Permutation_map, Array_sort_perm|].
        now rewrite map_timeOf_created.
    + eapply perm_trans; [exact Hp|].
      apply Permutation_sym, Array_sort_perm.
  - intros calls' Hcalls.
    assert (List.length calls' <= 10)%nat as Hlen'
      by (now rewrite <- (Permutation_length Hcalls)).
    assert (Forall (fun c => callTime c <> NaN) calls') as Hv'
      by (eapply Permutation_Forall; eassumption).
    assert (NoDup (map callTime calls')) as Hnd'
      by (eapply Permutation_NoDup; [apply Permutation_map|];
          eassumption).
    destruct (addStops_view Hlen' Hv' Hnd') as (_ & Hp' & Hs').
    apply (strictly_sorted_unique earlier_asym).
    + now apply earlier_forgetOrder.
    + now apply earlier_forgetOrder.
    + eapply perm_trans; [apply Permutation_map, Hp'|].
      eapply perm_trans; [|apply Permutation_sym, Permutation_map, Hp].
      rewrite !map_forgetOrder_created.
      apply Permutation_map, Permutation_sym, Hcalls.
Qed.
End RunFacts.

(* ================================================================== *)
(** ** The stored array stays chronological *)
(* ================================================================== *)

Section InvariantFacts.
Context {builtins : Builtins}.

Lemma toggled_times (id0 : string) (f : option StopStatus)
    (l : list Stop) :
  map dateTime (toggled id0 f l) = map dateTime l.
Proof.
  unfold toggled. rewrite map_map. apply map_ext. intros s.
  now destruct (String.eqb (id s) id0).
Qed.

Lemma toggled_orders (id0 : string) (f : option StopStatus)
    (l : list Stop) :
  map order (toggled id0 f l) = map order l.
Proof.
  unfold toggled. rewrite map_map. apply map_ext. intros s.
  now destruct (String.eqb (id s) id0).
Qed.

(** Chronology and validity only look at the [dateTime]s. *)
Lemma chron_times (l l' : list Stop) :
  map dateTime l = map dateTime l' ->
  StronglySorted chron l -> StronglySorted chron l'.
Proof.
  intros E H. revert l' E.
  induction H as [|x l Hl IH Hx]; intros [|x' l'] E; simpl in E;
    try discriminate; [constructor|].
  injection E as Ex El. constructor; [now apply IH|].
  rewrite Forall_forall in *. intros y' Hy'.
  apply (in_map dateTime) in Hy'. rewrite <- El in Hy'.
  apply in_map_iff in Hy' as (y & Ey & Hy).
  specialize (Hx y Hy). unfold chron, timeOf in *.
  now rewrite <- Ex, <- Ey.
Qed.

Lemma valid_times (l l' : list Stop) :
  map dateTime l = map dateTime l' ->
  Forall validTime l -> Forall validTime l'.
Proof.
  intros E H. revert l' E.
  induction H as [|x l Hx Hl IH]; intros [|x' l'] E; simpl in E;
    try discriminate; constructor.
  - injection E as Ex _. unfold validTime, timeOf in *. now rewrite <- Ex.
  - injection E as _ El. now apply IH.
Qed.

Lemma chron_filter (p : Stop -> bool) (l : list Stop) :
  StronglySorted chron l -> StronglySorted chron (filter p l).
Proof.
  induction 1 as [|x l Hl IH Hx]; simpl; [constructor|].
  destruct (p x); [|assumption].
  constructor; [assumption|].
  rewrite Forall_forall in *. intros y Hy.
  apply filter_In in Hy as [Hy _]. now apply Hx.
Qed.

Lemma valid_filter (p : Stop -> bool) (l : list Stop) :
  Forall validTime l -> Forall validTime (filter p l).
Proof.
  rewrite !Forall_forall. intros H y Hy.
  apply filter_In in Hy as [Hy _]. now apply H.
Qed.

Lemma chronological_nil : chronological [].
Proof. split; constructor. Qed.

Lemma setStops_invariant (next : list Stop) (w : World) :
  chronological next -> invariant (setStops next w).
Proof.
  intros Hnext. destruct (Nat.ltb_spec 10 (List.length next)).
  - rewrite setStops_beyond by assumption.
    split; [apply chronological_nil|]. split; [simpl; lia|].
    simpl. intros saved [= <-]. apply chronological_nil.
  - rewrite setStops_within by assumption.
    split; [exact Hnext|]. split; [assumption|].
    simpl. now intros saved [= <-].
Qed.

Lemma reachable_invariant (w : World) : reachable w -> invariant w.
Proof.
  induction 1 as [|w Hw IH|w uuid formData Hw IH Hv|w id0 f Hw IH
                  |w id0 Hw IH].
  - split; [apply chronological_nil|]. split; [simpl; lia|].
    simpl. discriminate.
  - destruct IH as (_ & _ & Hsaved). unfold mount.
    destruct (storage w) as [parsed|] eqn:E.
    + now apply setStops_invariant, Hsaved.
    + unfold saveResetEffect; simpl.
      split; [apply chronological_nil|]. split; [simpl; lia|].
      simpl. intros saved [= <-]. apply chronological_nil.
  - destruct IH as ((Hs & Hval) & _ & _).
    apply setStops_invariant. split.
    + now apply updatedStops_chron.
    + now apply updatedStops_valid.
  - destruct IH as ((Hs & Hval) & _ & _).
    apply setStops_invariant. split.
    + eapply chron_times; [|exact Hs].
      symmetry. apply toggled_times.
    + eapply valid_times; [|exact Hval].
      symmetry. apply toggled_times.
  - destruct IH as ((Hs & Hval) & _ & _).
    apply setStops_invariant. split.
    + now apply chron_filter.
    + now apply valid_filter.
Qed.

(** C10, as the store has it.  In every reachable world the stored array
    is in ascending order of [dateTime], so that [sortedStops] is the
    stored array itself; [toggleStatus] keeps every stop's place, date
    and [order], [deleteStop] keeps the remaining stops in sequence; and
    the stop that [addStop] creates carries as [order] the number of
    stops present before the insertion, wherever the sort places it. *)
Theorem stored_stops_chronological (w : World) :
  reachable w ->
  StronglySorted chron (stops w)
  /\ sortedStops (stops w) = stops w
  /\ (forall id0 f,
        map dateTime (stops (toggleStatus id0 f w))
        = map dateTime (stops w)
        /\ map order (stops (toggleStatus id0 f w)) = map order (stops w))
  /\ (forall id0,
        stops (deleteStop id0 w)
        = filter (fun s => negb (String.eqb (id s) id0)) (stops w))
  /\ (forall uuid formData,
        order (newStop uuid formData (List.length (stops w)))
        = List.length (stops w)
        /\ ((List.length (stops w) < 10)%nat ->
            In (newStop uuid formData (List.length (stops w)))
               (stops (addStop uuid formData w)))).
Proof.
  intros Hw. destruct (reachable_invariant Hw) as ((Hs & _) & Hlen & _).
  split; [exact Hs|].
  split; [now apply Array_sort_chron_id|].
  split.
  - intros id0 f. rewrite stops_toggleStatus by assumption.
    split; [apply toggled_times|apply toggled_orders].
  - split.
    + intros id0. now apply stops_deleteStop.
    + intros uuid formData. split; [reflexivity|].
      intros Hlt. rewrite stops_addStop by assumption.
      apply newStop_In_updatedStops.
Qed.
End InvariantFacts.

(* ================================================================== *)
(** ** The eleventh stop *)
(* ================================================================== *)

Section CapReset.
Context {builtins : Builtins}.

Lemma mount_empty_saved (a : nat) :
  mount {| stops := []; storage := Some []; alerts := a |}
  = mount {| stops := []; storage := None; alerts := a |}.
Proof. reflexivity. Qed.

(** C1.  Adding to a collection of exactly ten stops, all dates valid:
    the stop is not rejected, the array of eleven that contains it is
    committed; the effect run for that array finds it over the cap,
    alerts, removes the storage entry and enqueues the empty collection.
    At rest the collection is empty, the new stop gone with the others,
    one more alert was shown, and nothing is left in storage: the effect
    run for the emptied collection has written the empty array, no stop
    is saved, and a page load from this storage is the page load from an
    erased one. *)
Theorem addStop_eleventh_clears (uuid : string) (formData : FormData)
    (w : World) :
  List.length (stops w) = 10%nat ->
  Forall validTime (stops w) ->
  validTime (newStop uuid formData 10) ->
  let next := updatedStops uuid formData (stops w) in
  let w' := addStop uuid formData w in
  List.length next = 11%nat
  /\ In (newStop uuid formData 10) next
  /\ Forall validTime next
  /\ saveResetEffect (withStops next w)
     = ({| stops := next; storage := None; alerts := S (alerts w) |},
        Some [])
  /\ stops w' = []
  /\ alerts w' = S (alerts w)
  /\ storage w' = Some []
  /\ (forall s saved, storage w' = Some saved -> ~ In s saved)
  /\ mount w'
     = mount {| stops := stops w'; storage := None; alerts := alerts w' |}
  /\ stops (mount w') = [].
Proof.
  intros Hlen Hvalid Hnew next w'.
  assert (List.length next = 11%nat) as Hnext
    by (unfold next; rewrite updatedStops_length; lia).
  assert (w' = {| stops := []; storage := Some [];
                  alerts := S (alerts w) |}) as Hw'.
  { unfold w', addStop. fold next. now rewrite setStops_beyond by lia. }
  split; [exact Hnext|].
  split; [rewrite <- Hlen; apply newStop_In_updatedStops|].
  split.
  { unfold next. apply updatedStops_valid; [exact Hvalid|].
    now rewrite Hlen. }
  split.
  { unfold saveResetEffect; simpl. now rewrite Hnext. }
  rewrite Hw'. simpl.
  repeat split.
  intros s saved [= <-] [].
Qed.
End CapReset.

(* ================================================================== *)
(** ** The properties on the sample data *)
(* ================================================================== *)

(** The concrete instance agrees with the built-in [Number] on the texts
    used below. *)
Example Number_int_samples :
  Number_int "" = Num 0 /\ Number_int "abc" = NaN
  /\ Number_int "-5" = Num (-5) /\ Number_int " 1000 " = Num 1000.
Proof. repeat split; reflexivity. Qed.

Example newStop_cost_samples :
  cost (@newStop formBuiltins "x" (sampleForm "a" "2024-05-01" "09:00" "") 0)
  = Some (Num 0)
  /\ cost (@newStop formBuiltins "x"
             (sampleForm "a" "2024-05-01" "09:00" "abc") 0)
     = Some (Num 0)
  /\ cost (@newStop formBuiltins "x"
             (sampleForm "a" "2024-05-01" "09:00" "1000") 0)
     = Some (Num 1000).
Proof. repeat split; reflexivity. Qed.

Example parseISO_utc_samples :
  parseISO_utc "1970-01-01T00:00" = Num 0
  /\ parseISO_utc "2024-01-01T10:00" = Num 1704103200000
  /\ parseISO_utc "2023-02-29T10:00" = NaN.
Proof. repeat split; reflexivity. Qed.

Lemma tenCalls_valid :
  Forall (fun c => @callTime formBuiltins c <> NaN) tenCalls.
Proof. repeat constructor; vm_compute; discriminate. Defined.

Lemma tenCalls_distinct : NoDup (map (@callTime formBuiltins) tenCalls).
Proof.
  vm_compute. repeat constructor; simpl; intuition discriminate.
Defined.

Lemma twoStopsWorld_reachable : @reachable formBuiltins twoStopsWorld.
Proof.
  unfold twoStopsWorld.
  apply reach_add; [apply reach_add; [apply reach_initial|]|];
    vm_compute; discriminate.
Defined.

(** The ten sample calls, entered out of order. *)
Lemma sortedStops_after_adds_witness :
  (List.length tenCalls <= 10)%nat
  /\ StronglySorted (@earlier formBuiltins)
       (@sortedStops formBuiltins (stops tenStopsWorld))
  /\ map forgetOrder
       (@sortedStops formBuiltins
          (stops (@addStops formBuiltins (rev tenCalls) initial)))
     = map forgetOrder (@sortedStops formBuiltins (stops tenStopsWorld)).
Proof.
  assert (List.length tenCalls <= 10)%nat as H by (simpl; lia).
  split; [exact H|].
  destruct (@sortedStops_after_adds formBuiltins tenCalls H tenCalls_valid
              tenCalls_distinct) as (_ & _ & Hs & Hperm).
  split; [exact Hs|].
  apply Hperm, Permutation_rev.
Defined.

Lemma tenStopsWorld_valid :
  Forall (@validTime formBuiltins) (stops tenStopsWorld).
Proof.
  let l := eval vm_compute in (stops tenStopsWorld) in
  change (Forall (@validTime formBuiltins) l).
  repeat constructor; vm_compute; discriminate.
Defined.

Lemma eleventhForm_valid :
  @validTime formBuiltins (@newStop formBuiltins "id-11" eleventhForm 10).
Proof. vm_compute. discriminate. Defined.

(** The eleventh addition to the ten sample stops. *)
Lemma addStop_eleventh_clears_witness :
  List.length (stops tenStopsWorld) = 10%nat
  /\ Forall (@validTime formBuiltins) (stops tenStopsWorld)
  /\ In (@newStop formBuiltins "id-11" eleventhForm 10)
        (@updatedStops formBuiltins "id-11" eleventhForm
           (stops tenStopsWorld))
  /\ stops (@addStop formBuiltins "id-11" eleventhForm tenStopsWorld) = []
  /\ stops (mount (@addStop formBuiltins "id-11" eleventhForm
                     tenStopsWorld)) = [].
Proof.
  assert (List.length (stops tenStopsWorld) = 10%nat) as H
    by (vm_compute; reflexivity).
  split; [exact H|]. split; [exact tenStopsWorld_valid|].
  destruct (@addStop_eleventh_clears formBuiltins "id-11" eleventhForm
              tenStopsWorld H tenStopsWorld_valid eleventhForm_valid)
    as (_ & Hin & _ & _ & Hstops & _ & _ & _ & _ & Hload).
  split; [exact Hin|]. split; [exact Hstops|exact Hload].
Defined.

(** C2, the claim as written fails.  In New York the texts [02:30] and
    [03:30] of 10 March 2024 are different [dateTime] values for one and
    the same instant, and [02:30] is an instant after [03:00].  Two stops
    added for [02:30] and [03:30] are shown in the sequence of the calls,
    whichever it is, so the view depends on it; and stops added for
    [02:30] and [03:00] are shown with [03:00] first. *)
Lemma dateTime_texts_are_not_instants :
  dateTime (@newStop newYorkBuiltins (fst skippedHourCall)
              (snd skippedHourCall) 0)
  <> dateTime (@newStop newYorkBuiltins (fst halfPastThreeCall)
                 (snd halfPastThreeCall) 0)
  /\ map dateTime
       (@sortedStops newYorkBuiltins
          (stops (@addStops newYorkBuiltins
                    [skippedHourCall; halfPastThreeCall] initial)))
     = ["2024-03-10T02:30"; "2024-03-10T03:30"]
  /\ map dateTime
       (@sortedStops newYorkBuiltins
          (stops (@addStops newYorkBuiltins
                    [halfPastThreeCall; skippedHourCall] initial)))
     = ["2024-03-10T03:30"; "2024-03-10T02:30"]
  /\ map forgetOrder
       (@sortedStops newYorkBuiltins
          (stops (@addStops newYorkBuiltins
                    [skippedHourCall; halfPastThreeCall] initial)))
     <> map forgetOrder
          (@sortedStops newYorkBuiltins
             (stops (@addStops newYorkBuiltins
                       [halfPastThreeCall; skippedHourCall] initial)))
  /\ map dateTime
       (@sortedStops newYorkBuiltins
          (stops (@addStops newYorkBuiltins
                    [skippedHourCall; threeCall] initial)))
     = ["2024-03-10T03:00"; "2024-03-10T02:30"].
Proof.
  split; [vm_compute; discriminate|].
  split; [vm_compute; reflexivity|].
  split; [vm_compute; reflexivity|].
  split; [vm_compute; discriminate|].
  vm_compute; reflexivity.
Qed.

(** Marking the earlier of the two sample stops, twice. *)
Lemma toggleStatus_unforced_witness :
  (List.length (stops twoStopsWorld) <= 10)%nat
  /\ nth_error (stops twoStopsWorld) 0 = Some earlyStop
  /\ status earlyStop = planned
  /\ (exists s',
        nth_error (stops (toggleStatus "id-b" None twoStopsWorld)) 0
        = Some s'
        /\ status s' = visited /\ order s' = 1%nat)
  /\ nth_error
       (stops (toggleStatus "id-b" None
                 (toggleStatus "id-b" None twoStopsWorld))) 0
     = Some earlyStop.
Proof.
  assert (nth_error (stops twoStopsWorld) 0 = Some earlyStop) as H
    by (vm_compute; reflexivity).
  assert (List.length (stops twoStopsWorld) <= 10)%nat as Hlen
    by (vm_compute; lia).
  split; [exact Hlen|]. split; [exact H|]. split; [reflexivity|].
  destruct (@toggleStatus_unforced twoStopsWorld 0 earlyStop Hlen H)
    as ((s' & Hs' & _ & _ & Hv & _ & _ & _ & _ & _ & _ & _ & Ho)
        & _ & _ & _ & H2).
  split; [|exact (H2 eq_refl)].
  exists s'. split; [exact Hs'|]. split; [exact (Hv eq_refl)|exact Ho].
Defined.

(** A cost field holding [-5]. *)
Lemma addStop_cost_coerced_witness :
  (List.length (stops initial) < 10)%nat
  /\ cost (@newStop formBuiltins "id-r" refundForm 0) = Some (Num (-5))
  /\ In (@newStop formBuiltins "id-r" refundForm 0)
        (stops (@addStop formBuiltins "id-r" refundForm initial)).
Proof.
  assert (List.length (stops initial) < 10)%nat as H by (simpl; lia).
  split; [exact H|].
  destruct (@addStop_cost_coerced formBuiltins "id-r" refundForm initial)
    as (Hc & _ & _ & _ & Hin).
  split; [exact Hc|exact (Hin H)].
Defined.

(** C4, the claim as written fails: the stop created from a cost field
    holding [-5] is stored with the negative cost [-5]. *)
Lemma negative_cost_stored :
  exists s,
    In s (stops (@addStop formBuiltins "id-r" refundForm initial))
    /\ cost s = Some (Num (-5))
    /\ ~ (exists z, cost s = Some (Num z) /\ 0 <= z).
Proof.
  exists (@newStop formBuiltins "id-r" refundForm 0).
  split; [vm_compute; now left|].
  split; [reflexivity|].
  intros (z & Hz & Hpos). vm_compute in Hz. injection Hz as <-. lia.
Qed.

Lemma fourStops_safe : safeCosts fourStops.
Proof. vm_compute. discriminate. Defined.

Lemma totalCost_sums_all_witness :
  safeCosts fourStops
  /\ map cost fourStops
     = [Some (Num 1000); Some (Num 0); None; Some (Num 2500)]
  /\ totalCost fourStops = Num (sumZ (map costValue fourStops))
  /\ totalCost fourStops = Num 3500.
Proof.
  assert (map cost fourStops
          = [Some (Num 1000); Some (Num 0); None; Some (Num 2500)]) as H
    by reflexivity.
  split; [exact fourStops_safe|]. split; [exact H|].
  destruct (totalCost_sums_all fourStops) as (Hsum & _ & _ & _ & Hex).
  split; [exact (proj1 (Hsum fourStops_safe))|exact (proj2 (Hex H))].
Defined.

Lemma nextStop_first_planned_witness :
  @sortedStops formBuiltins fourStops = [stopB; stopD; stopC; stopA]
  /\ @nextStop formBuiltins fourStops = Some stopC.
Proof.
  assert (@sortedStops formBuiltins fourStops
          = [stopB; stopD; stopC; stopA]) as H by (vm_compute; reflexivity).
  split; [exact H|].
  destruct (@nextStop_first_planned formBuiltins fourStops)
    as (_ & _ & Hex).
  exact (Hex stopB stopD stopC stopA H eq_refl eq_refl eq_refl eq_refl).
Defined.

Lemma twoStopsWorld_settled : settled twoStopsWorld.
Proof. split; [vm_compute; lia|vm_compute; reflexivity]. Defined.

Lemma twoStopsWorld_ids (s : Stop) :
  In s (stops twoStopsWorld) -> id s <> "id-z".
Proof.
  intros Hs. vm_compute in Hs.
  destruct Hs as [<-|[<-|[]]]; vm_compute; discriminate.
Defined.

Lemma unknown_id_ignored_witness :
  (List.length (stops twoStopsWorld) <= 10)%nat
  /\ settled twoStopsWorld
  /\ toggleStatus "id-z" None twoStopsWorld = twoStopsWorld
  /\ deleteStop "id-z" twoStopsWorld = twoStopsWorld.
Proof.
  assert (List.length (stops twoStopsWorld) <= 10)%nat as Hlen
    by (vm_compute; lia).
  split; [exact Hlen|]. split; [exact twoStopsWorld_settled|].
  destruct (@unknown_id_ignored twoStopsWorld "id-z" None Hlen
              twoStopsWorld_ids) as (_ & _ & H).
  exact (H twoStopsWorld_settled).
Defined.

Lemma deleteStop_removes_only_witness :
  (List.length (stops twoStopsWorld) <= 10)%nat
  /\ NoDup (map id (stops twoStopsWorld))
  /\ stops twoStopsWorld = [earlyStop] ++ lateStop :: []
  /\ stops (deleteStop "id-a" twoStopsWorld) = [earlyStop].
Proof.
  assert (List.length (stops twoStopsWorld) <= 10)%nat as Hlen
    by (vm_compute; lia).
  assert (NoDup (map id (stops twoStopsWorld))) as Hnd
    by (vm_compute; repeat constructor; simpl; intuition discriminate).
  assert (stops twoStopsWorld = [earlyStop] ++ lateStop :: []) as H
    by (vm_compute; reflexivity).
  split; [exact Hlen|]. split; [exact Hnd|]. split; [exact H|].
  exact (@deleteStop_removes_only twoStopsWorld [earlyStop] [] lateStop
           Hlen Hnd H).
Defined.

Lemma stored_stops_chronological_witness :
  @reachable formBuiltins twoStopsWorld
  /\ @sortedStops formBuiltins (stops twoStopsWorld) = stops twoStopsWorld.
Proof.
  split; [exact twoStopsWorld_reachable|].
  destruct (@stored_stops_chronological formBuiltins twoStopsWorld
              twoStopsWorld_reachable) as (_ & Hfix & _).
  exact Hfix.
Defined.

(** C10, the claim as written fails: in the world reached by adding the
    19:00 stop and then the 07:00 stop, the stored array is chronological,
    but the stop in the first chronological place carries [order = 1] and
    the stop in the second place [order = 0]: [order] is the number of
    stops present before the insertion, not the place among them. *)
Lemma order_is_not_chronological_position :
  @reachable formBuiltins twoStopsWorld
  /\ stops twoStopsWorld = [earlyStop; lateStop]
  /\ @earlier formBuiltins earlyStop lateStop
  /\ order earlyStop = 1%nat
  /\ order lateStop = 0%nat
  /\ ~ (forall i s, nth_error (stops twoStopsWorld) i = Some s ->
                    order s = i).
Proof.
  split; [exact twoStopsWorld_reachable|].
  assert (stops twoStopsWorld = [earlyStop; lateStop]) as E
    by (vm_compute; reflexivity).
  split; [exact E|].
  split; [vm_compute; reflexivity|].
  split; [reflexivity|]. split; [reflexivity|].
  intros H. specialize (H 0%nat earlyStop). rewrite E in H.
  specialize (H eq_refl). discriminate.
Qed.

(* ================================================================== *)
(** ** More about the sort: where an element lands, ties, mapping *)
(* ================================================================== *)

Section ArraySortPlacement.
Variable A : Type.
Variable comparefn : A -> A -> number.

(** [insert] puts the element into the list as it is, behind a prefix of
    elements it compares greater than. *)
Lemma insert_splits (x : A) (l : list A) :
  exists l1 l2,
    l = l1 ++ l2 /\ insert comparefn x l = l1 ++ x :: l2
    /\ Forall (fun y => 0 < sortCompare comparefn x y) l1.
Proof.
  induction l as [|y l IH]; simpl.
  - exists [], []. repeat split; constructor.
  - destruct (Z.ltb_spec 0 (sortCompare comparefn x y)) as [Hgt|Hle].
    + destruct IH as (l1 & l2 & -> & E & Hl1).
      exists (y :: l1), l2. simpl. rewrite E.
      repeat split. now constructor.
    + exists [], (y :: l). repeat split; constructor.
Qed.
End ArraySortPlacement.

Lemma insert_map (A B : Type) (cmpA : A -> A -> number)
    (cmpB : B -> B -> number) (f : A -> B) :
  (forall x y, cmpB (f x) (f y) = cmpA x y) ->
  forall x l, insert cmpB (f x) (map f l) = map f (insert cmpA x l).
Proof.
  intros H x l. induction l as [|y l IH]; simpl; [reflexivity|].
  assert (sortCompare cmpB (f x) (f y) = sortCompare cmpA x y) as ->
    by (unfold sortCompare; now rewrite H).
  destruct (0 <? sortCompare cmpA x y).
  - simpl. now rewrite IH.
  - reflexivity.
Qed.

Lemma Array_sort_map (A B : Type) (cmpA : A -> A -> number)
    (cmpB : B -> B -> number) (f : A -> B) :
  (forall x y, cmpB (f x) (f y) = cmpA x y) ->
  forall l, Array_sort cmpB (map f l) = map f (Array_sort cmpA l).
Proof.
  intros H l. induction l as [|x l IH]; simpl; [reflexivity|].
  rewrite IH. now apply insert_map.
Qed.

Section SortedStopsMore.
Context {builtins : Builtins}.

Lemma sortCompare_pos (x y : Stop) :
  0 < sortCompare byDateTime x y ->
  exists tx ty, timeOf x = Num tx /\ timeOf y = Num ty /\ ty < tx.
Proof.
  unfold sortCompare, byDateTime, timeOf.
  destruct (parseISO (dateTime x)) as [|tx]; [simpl; lia|].
  destruct (parseISO (dateTime y)) as [|ty]; [simpl; lia|].
  rewrite compareAsc_Num. intros H. exists tx, ty.
  repeat split. destruct (Z.ltb_spec tx ty); [lia|].
  destruct (Z.ltb_spec ty tx); lia.
Qed.

Lemma number_eqb_eq (a b : number) : number_eqb a b = true <-> a = b.
Proof.
  destruct a as [|x], b as [|y]; simpl; split; try congruence.
  - intros H. apply Z.eqb_eq in H. now subst.
  - intros [= ->]. apply Z.eqb_refl.
Qed.

Lemma atTime_app (t : number) (l1 l2 : list Stop) :
  atTime t (l1 ++ l2) = atTime t l1 ++ atTime t l2.
Proof. apply filter_app. Qed.

Lemma atTime_later_nil (t : number) (x : Stop) (l1 : list Stop) :
  timeOf x = t ->
  Forall (fun y => 0 < sortCompare byDateTime x y) l1 ->
  atTime t l1 = [].
Proof.
  intros Hx H. induction H as [|y l1 Hy Hl1 IH]; simpl; [reflexivity|].
  apply sortCompare_pos in Hy as (tx & ty & Ex & Ey & Hlt).
  destruct (number_eqb (timeOf y) t) eqn:E; [|exact IH].
  apply number_eqb_eq in E. rewrite Ey, <- Hx, Ex in E.
  injection E as E. lia.
Qed.

Lemma atTime_sorted (t : number) (l : list Stop) :
  atTime t (sortedStops l) = atTime t l.
Proof.
  unfold sortedStops.
  induction l as [|x l IH]; simpl; [reflexivity|].
  destruct (insert_splits byDateTime x (Array_sort byDateTime l))
    as (l1 & l2 & E & -> & Hl1).
  rewrite E, atTime_app in IH. rewrite atTime_app. simpl.
  destruct (number_eqb (timeOf x) t) eqn:Ex.
  - apply number_eqb_eq in Ex.
    assert (atTime t l1 = []) as El1
      by (eapply atTime_later_nil; eassumption).
    rewrite El1 in *. simpl in *. now rewrite IH.
  - exact IH.
Qed.

(** The sort is stable on stops.  For an array whose dates are all valid
    (so that the comparator is a consistent ordering and the result of
    the sort is determined), the stops scheduled at one and the same
    instant keep, in [sortedStops], the sequence they have in the array,
    and the view is in ascending order of instant. *)
Theorem sortedStops_stable (t : number) (l : list Stop) :
  Forall validTime l ->
  atTime t (sortedStops l) = atTime t l
  /\ StronglySorted chron (sortedStops l).
Proof.
  intros Hv. split; [apply atTime_sorted|].
  now apply Array_sort_chron.
Qed.

(** For an array whose dates are all valid, loaded or built in any way,
    [sortedStops] holds the same stops in ascending order of date, and
    sorting the result again changes nothing. *)
Theorem sortedStops_chronological (l : list Stop) :
  Forall validTime l ->
  Permutation (sortedStops l) l
  /\ StronglySorted chron (sortedStops l)
  /\ sortedStops (sortedStops l) = sortedStops l.
Proof.
  intros Hv. unfold sortedStops.
  split; [apply Array_sort_perm|].
  assert (StronglySorted chron (Array_sort byDateTime l)) as Hs
    by now apply Array_sort_chron.
  split; [exact Hs|]. now apply Array_sort_chron_id.
Qed.

Lemma byDateTime_withStatus (f : Stop -> Stop) :
  (forall s, dateTime (f s) = dateTime s) ->
  forall x y, byDateTime (f x) (f y) = byDateTime x y.
Proof. intros H x y. unfold byDateTime. now rewrite !H. Qed.

Lemma toggled_as_map (id0 : string) (force : option StopStatus) :
  exists f : Stop -> Stop,
    (forall s, dateTime (f s) = dateTime s)
    /\ forall l, toggled id0 force l = map f l.
Proof.
  eexists. split; [|intros l; reflexivity].
  intros s. simpl. now destruct (String.eqb (id s) id0).
Qed.

(** Changing statuses and sorting commute: the chronological view of the
    toggled array is the toggled chronological view, so a change of
    status never moves a stop on the screen. *)
Theorem sortedStops_toggled (id0 : string) (force : option StopStatus)
    (l : list Stop) :
  sortedStops (toggled id0 force l) = toggled id0 force (sortedStops l).
Proof.
  destruct (toggled_as_map id0 force) as (f & Hf & Hmap).
  unfold sortedStops. rewrite !Hmap.
  apply Array_sort_map. now apply byDateTime_withStatus.
Qed.
End SortedStopsMore.

(* ================================================================== *)
(** ** How the operations of the store compose *)
(* ================================================================== *)

Section Composition.
Context {builtins : Builtins}.

Lemma setStops_cases (next : list Stop) (w : World) :
  setStops next w
  = if (10 <? List.length next)%nat
    then {| stops := []; storage := Some []; alerts := S (alerts w) |}
    else {| stops := next; storage := Some next; alerts := alerts w |}.
Proof.
  destruct (Nat.ltb_spec 10 (List.length next)).
  - now apply setStops_beyond.
  - now apply setStops_within.
Qed.

Lemma mount_settled (w : World) : settled (mount w).
Proof.
  unfold mount. destruct (storage w) as [parsed|].
  - apply setStops_settled.
  - unfold saveResetEffect; simpl. split; simpl; [lia|reflexivity].
Qed.

Lemma mount_of_settled (w : World) : settled w -> mount w = w.
Proof.
  intros [Hlen Hsto]. unfold mount. rewrite Hsto.
  rewrite setStops_within by assumption.
  destruct w as [l sto n]; simpl in *. now subst.
Qed.

(** A page load gives back the world that was left.  With a storage entry
    that is absent or holds an array of stops with valid dates: on a world
    at rest [mount] is the identity (the saved array is read back as the
    collection, nothing is lost or reordered, no alert), and loading twice
    is loading once. *)
Theorem mount_restores (w : World) :
  validSaved w ->
  (settled w -> mount w = w)
  /\ mount (mount w) = mount w
  /\ Forall validTime (stops (mount w)).
Proof.
  intros Hsaved.
  split; [apply mount_of_settled|].
  split; [apply mount_of_settled, mount_settled|].
  unfold mount. destruct (storage w) as [parsed|] eqn:E.
  - rewrite setStops_cases.
    destruct (10 <? List.length parsed)%nat; simpl; [constructor|].
    now apply Hsaved.
  - simpl. constructor.
Qed.

Lemma setStops_valid (next : list Stop) (w : World) :
  Forall validTime next ->
  Forall validTime (stops (setStops next w)) /\ validSaved (setStops next w).
Proof.
  intros Hv. unfold validSaved. rewrite setStops_cases.
  destruct (10 <? List.length next)%nat; simpl.
  - split; [constructor|]. intros saved [= <-]. constructor.
  - split; [exact Hv|]. now intros saved [= <-].
Qed.

(** From a world whose stops, shown and saved, all have valid dates, the
    page load and the three mutators (an addition being one with a valid
    date) end in a world at rest: at most ten stops, and a storage entry
    that is present and holds exactly the current collection; and the
    dates of that world are valid again. *)
Theorem operations_end_at_rest (w : World) :
  Forall validTime (stops w) ->
  validSaved w ->
  (settled (mount w) /\ Forall validTime (stops (mount w))
   /\ validSaved (mount w))
  /\ (forall uuid formData,
        validTime (newStop uuid formData (List.length (stops w))) ->
        settled (addStop uuid formData w)
        /\ Forall validTime (stops (addStop uuid formData w))
        /\ validSaved (addStop uuid formData w))
  /\ (forall id0 force,
        settled (toggleStatus id0 force w)
        /\ Forall validTime (stops (toggleStatus id0 force w))
        /\ validSaved (toggleStatus id0 force w))
  /\ (forall id0,
        settled (deleteStop id0 w)
        /\ Forall validTime (stops (deleteStop id0 w))
        /\ validSaved (deleteStop id0 w)).
Proof.
  intros Hv Hsaved.
  split.
  { split; [apply mount_settled|].
    unfold mount. destruct (storage w) as [parsed|] eqn:E.
    - apply setStops_valid. now apply Hsaved.
    - simpl. split; [constructor|]. intros saved [= <-]. constructor. }
  split.
  { intros uuid formData Hnew. split; [apply setStops_settled|].
    apply setStops_valid. now apply updatedStops_valid. }
  split.
  { intros id0 force. split; [apply setStops_settled|].
    apply setStops_valid.
    eapply valid_times; [|exact Hv]. symmetry. apply toggled_times. }
  intros id0. split; [apply setStops_settled|].
  apply setStops_valid. now apply valid_filter.
Qed.

Lemma updatedStops_splits (l : list Stop) (n : Stop) :
  chronological l -> validTime n ->
  exists l1 l2,
    l = l1 ++ l2
    /\ Array_sort byDateTime (l ++ [n]) = l1 ++ n :: l2
    /\ Forall (fun y => chron y n) l1
    /\ Forall (fun y => earlier n y) l2.
Proof.
  intros [Hs Hv] Hn. apply validTime_Num in Hn as [tn Htn].
  induction Hs as [|y l Hl IH Hy].
  - exists [], []. simpl. repeat split; constructor.
  - inversion Hv as [|? ? Hvy Hvl]; subst.
    destruct (IH Hvl) as (l1 & l2 & E & Es & H1 & H2).
    apply validTime_Num in Hvy as [ty Hty].
    simpl. rewrite Es.
    assert (forall z, In z l -> chron y z) as Hy'
      by (now apply Forall_forall).
    destruct (Z_le_gt_dec ty tn) as [Hle|Hgt].
    + exists (y :: l1), l2.
      assert (chron y n) as Hyn by (unfold chron; now rewrite Hty, Htn).
      split; [simpl; now rewrite E|]. split.
      * apply insert_front. destruct l1 as [|z l1]; simpl; constructor.
        -- now apply chron_sortCompare.
        -- apply chron_sortCompare, Hy'. rewrite E. now left.
      * split; [now constructor|exact H2].
    + destruct l1 as [|z l1].
      * simpl in E. subst l2.
        exists [], (y :: l). simpl.
        rewrite (sortCompare_byDateTime _ _ Hty Htn).
        destruct (Z.ltb_spec ty tn); [lia|].
        destruct (Z.ltb_spec tn ty); [|lia]. simpl.
        split; [reflexivity|]. split.
        -- f_equal. apply insert_front.
           destruct l as [|z l]; constructor.
           apply chron_sortCompare, Hy'. now left.
        -- split; [constructor|]. constructor; [|exact H2].
           unfold earlier. rewrite Htn, Hty. lia.
      * exfalso. inversion H1 as [|? ? Hzn _]; subst.
        assert (chron y z) as Hyz by (apply Hy'; now left).
        unfold chron in Hzn, Hyz. rewrite Hty in Hyz. rewrite Htn in Hzn.
        destruct (timeOf z); [tauto|lia].
Qed.

(** On a chronological collection within the cap, [addStop] leaves the
    existing stops as they are and in their sequence, and puts the new
    stop between those scheduled no later than it and those scheduled
    strictly later: a stop added for an instant already taken comes after
    the stops that have it. *)
Theorem addStop_inserts_in_place (uuid : string) (formData : FormData)
    (w : World) :
  chronological (stops w) ->
  (List.length (stops w) < 10)%nat ->
  validTime (newStop uuid formData (List.length (stops w))) ->
  exists l1 l2,
    stops w = l1 ++ l2
    /\ stops (addStop uuid formData w)
       = l1 ++ newStop uuid formData (List.length (stops w)) :: l2
    /\ Forall (fun y => chron y
                 (newStop uuid formData (List.length (stops w)))) l1
    /\ Forall (fun y => earlier
                 (newStop uuid formData (List.length (stops w))) y) l2.
Proof.
  intros Hc Hlen Hn. rewrite stops_addStop by assumption.
  now apply updatedStops_splits.
Qed.

(** Deleting the stop just added undoes the addition: in a world at rest
    with a chronological collection below the cap, [addStop] with a fresh
    id followed by [deleteStop] of that id gives back the world, storage
    included. *)
Theorem deleteStop_undoes_addStop (uuid : string) (formData : FormData)
    (w : World) :
  settled w ->
  chronological (stops w) ->
  (List.length (stops w) < 10)%nat ->
  validTime (newStop uuid formData (List.length (stops w))) ->
  (forall s, In s (stops w) -> id s <> uuid) ->
  deleteStop uuid (addStop uuid formData w) = w.
Proof.
  intros Hw Hc Hlen Hn Hfresh.
  destruct (updatedStops_splits Hc Hn) as (l1 & l2 & E & Es & _ & _).
  unfold addStop, updatedStops. rewrite Es.
  rewrite setStops_within by (rewrite length_app; simpl;
    rewrite E, length_app in Hlen; lia).
  unfold deleteStop. simpl stops.
  rewrite filter_app. simpl. rewrite String.eqb_refl. simpl.
  rewrite !filter_other.
  - rewrite <- E. rewrite setStops_within by lia.
    destruct Hw as [_ Hsto]. destruct w as [l sto a]; simpl in *.
    now subst.
  - intros s Hs. apply Hfresh. rewrite E. apply in_or_app. now right.
  - intros s Hs. apply Hfresh. rewrite E. apply in_or_app. now left.
Qed.
End Composition.

Section ToggleComposition.
Context {builtins : Builtins}.

Lemma toggleStatus_cases (id0 : string) (force : option StopStatus)
    (w : World) :
  toggleStatus id0 force w
  = if (10 <? List.length (stops w))%nat
    then {| stops := []; storage := Some []; alerts := S (alerts w) |}
    else {| stops := toggled id0 force (stops w);
            storage := Some (toggled id0 force (stops w));
            alerts := alerts w |}.
Proof.
  unfold toggleStatus. rewrite setStops_cases. now rewrite toggled_length.
Qed.

Lemma toggled_forced_last (id0 : string) (force : option StopStatus)
    (f : StopStatus) (l : list Stop) :
  toggled id0 (Some f) (toggled id0 force l) = toggled id0 (Some f) l.
Proof.
  unfold toggled. rewrite map_map. apply map_ext. intros s.
  destruct (String.eqb (id s) id0) eqn:E; simpl; rewrite E; reflexivity.
Qed.

(** A forced status overrides whatever was toggled before on the same id:
    [toggleStatus(id, f)] after any [toggleStatus] on that id, forced or
    not, gives the world that [toggleStatus(id, f)] alone gives. *)
Theorem toggleStatus_forced_overrides (id0 : string)
    (force : option StopStatus) (f : StopStatus) (w : World) :
  toggleStatus id0 (Some f) (toggleStatus id0 force w)
  = toggleStatus id0 (Some f) w.
Proof.
  rewrite (toggleStatus_cases id0 force w).
  rewrite (toggleStatus_cases id0 (Some f) w).
  destruct (10 <? List.length (stops w))%nat eqn:E.
  - rewrite toggleStatus_cases. reflexivity.
  - rewrite toggleStatus_cases. simpl stops. simpl alerts.
    rewrite toggled_length, E, toggled_forced_last. reflexivity.
Qed.

Lemma toggled_commute (id1 id2 : string) (f1 f2 : option StopStatus)
    (l : list Stop) :
  id1 <> id2 ->
  toggled id1 f1 (toggled id2 f2 l) = toggled id2 f2 (toggled id1 f1 l).
Proof.
  intros Hne. unfold toggled. rewrite !map_map. apply map_ext. intros s.
  destruct (String.eqb (id s) id1) eqn:E1;
    destruct (String.eqb (id s) id2) eqn:E2; simpl;
    rewrite ?E1, ?E2; try reflexivity.
  apply String.eqb_eq in E1, E2. congruence.
Qed.

Lemma filter_toggled (id1 id0 : string) (force : option StopStatus)
    (l : list Stop) :
  filter (fun s => negb (String.eqb (id s) id1)) (toggled id0 force l)
  = toggled id0 force (filter (fun s => negb (String.eqb (id s) id1)) l).
Proof.
  induction l as [|s l IH]; simpl; [reflexivity|].
  assert (id (if String.eqb (id s) id0
              then withStatus s
                     match force with
                     | Some f => f
                     | None => if StopStatus_eqb (status s) visited
                               then planned else visited
                     end
              else s) = id s) as ->
    by (now destruct (String.eqb (id s) id0)).
  destruct (String.eqb (id s) id1); simpl; [exact IH|].
  now rewrite IH.
Qed.

(** Status changes on different ids do not interfere: they commute, in
    every world.  In a world within the cap a status change also commutes
    with any deletion. *)
Theorem toggleStatus_commutes (id1 id2 : string)
    (f1 f2 : option StopStatus) (w : World) :
  (id1 <> id2 ->
   toggleStatus id1 f1 (toggleStatus id2 f2 w)
   = toggleStatus id2 f2 (toggleStatus id1 f1 w))
  /\ ((List.length (stops w) <= 10)%nat ->
      deleteStop id1 (toggleStatus id2 f2 w)
      = toggleStatus id2 f2 (deleteStop id1 w)).
Proof.
  split.
  - intros Hne.
    rewrite (toggleStatus_cases id2 f2 w), (toggleStatus_cases id1 f1 w).
    destruct (10 <? List.length (stops w))%nat eqn:E.
    + rewrite !toggleStatus_cases. reflexivity.
    + rewrite !toggleStatus_cases. simpl stops. simpl alerts.
      rewrite !toggled_length, E. now rewrite toggled_commute.
  - intros Hlen.
    assert ((10 <? List.length (stops w))%nat = false) as E
      by (apply Nat.ltb_ge; exact Hlen).
    pose proof (filter_length_le
                  (fun s => negb (String.eqb (id s) id1)) (stops w)) as Hf.
    assert (deleteStop id1 w
            = {| stops := filter (fun s => negb (String.eqb (id s) id1))
                                 (stops w);
                 storage := Some (filter
                                    (fun s => negb (String.eqb (id s) id1))
                                    (stops w));
                 alerts := alerts w |}) as ->
      by (apply setStops_within; lia).
    rewrite !toggleStatus_cases, E. simpl stops. simpl alerts.
    assert ((10 <? List.length
               (filter (fun s => negb (String.eqb (id s) id1)) (stops w)))%nat
            = false) as -> by (apply Nat.ltb_ge; lia).
    unfold deleteStop. simpl stops.
    rewrite setStops_within
      by (eapply Nat.le_trans; [apply filter_length_le|];
          rewrite toggled_length; lia).
    rewrite filter_toggled. reflexivity.
Qed.

(** [toggleStatus] touches nothing but the status of the stops that carry
    the id: in a world within the cap every stop with another id stays
    the same record at the same place, and the number of stops, their ids
    and the total cost are unchanged. *)
Theorem toggleStatus_frame (id0 : string) (force : option StopStatus)
    (w : World) :
  (List.length (stops w) <= 10)%nat ->
  (forall i s, nth_error (stops w) i = Some s -> id s <> id0 ->
               nth_error (stops (toggleStatus id0 force w)) i = Some s)
  /\ List.length (stops (toggleStatus id0 force w))
     = List.length (stops w)
  /\ map id (stops (toggleStatus id0 force w)) = map id (stops w)
  /\ totalCost (stops (toggleStatus id0 force w)) = totalCost (stops w).
Proof.
  intros Hlen. rewrite stops_toggleStatus by assumption.
  split; [|split; [apply toggled_length|split]].
  - intros i s Hi Hid. unfold toggled. rewrite nth_error_map, Hi. simpl.
    now rewrite (proj2 (String.eqb_neq _ _) Hid).
  - unfold toggled. rewrite map_map. apply map_ext. intros s.
    now destruct (String.eqb (id s) id0).
  - rewrite !totalCost_sumZ. f_equal. f_equal.
    unfold toggled. rewrite map_map. apply map_ext. intros s.
    now destruct (String.eqb (id s) id0).
Qed.
End ToggleComposition.

(* ================================================================== *)
(** ** The total, the status lists and the next stop under changes *)
(* ================================================================== *)

Section ViewsUnderChange.
Context {builtins : Builtins}.

Lemma sumZ_perm (l l' : list Z) : Permutation l l' -> sumZ l = sumZ l'.
Proof.
  induction 1 as [| x l l' _ IH | x y l | l l' l'' _ IH1 _ IH2]; simpl;
    try lia.
Qed.

Lemma totalCost_perm (l l' : list Stop) :
  Permutation l l' -> totalCost l = totalCost l'.
Proof.
  intros H. rewrite !totalCost_sumZ. f_equal.
  now apply sumZ_perm, Permutation_map.
Qed.

Lemma orZero_idem (n : number) : orZero (orZero n) = orZero n.
Proof.
  unfold orZero, truthy. destruct n as [|z]; [reflexivity|].
  destruct (Z.eqb_spec z 0) as [->|Hz]; simpl; [reflexivity|].
  now rewrite (proj2 (Z.eqb_neq z 0) Hz).
Qed.

(** An addition that stays within the cap raises the total by exactly the
    cost stored on the new stop, that is by [Number(cost) || 0], wherever
    the sort places the stop, provided the costs of the resulting
    collection stay within the safe integers (else the additions of the
    reduce round, differently in different orders). *)
Theorem totalCost_addStop (uuid : string) (formData : FormData)
    (w : World) :
  (List.length (stops w) < 10)%nat ->
  safeCosts (stops (addStop uuid formData w)) ->
  totalCost (stops (addStop uuid formData w))
  = add (totalCost (stops w)) (orZero (Number (get_cost formData)))
  /\ safeCosts (stops w).
Proof.
  intros Hlen Hsafe. rewrite stops_addStop in * by assumption.
  pose proof (updatedStops_perm uuid formData (stops w)) as Hp.
  split.
  - rewrite (totalCost_perm Hp).
    rewrite !totalCost_sumZ. simpl.
    assert (Num (costValue (newStop uuid formData
                              (List.length (stops w))))
            = orZero (Number (get_cost formData))) as <-
      by (rewrite <- optOrZero_costValue; simpl; apply orZero_idem).
    simpl. f_equal. lia.
  - unfold safeCosts in *.
    rewrite (sumZ_perm (Permutation_map
               (fun s => Z.abs (costValue s)) Hp)) in Hsafe.
    simpl in Hsafe. lia.
Qed.

Lemma filter_id_split (before after : list Stop) (x : Stop) :
  NoDup (map id (before ++ x :: after)) ->
  filter (fun s => negb (String.eqb (id s) (id x))) (before ++ x :: after)
  = before ++ after.
Proof.
  intros Hnd. rewrite map_app in Hnd. simpl in Hnd.
  apply NoDup_remove_2 in Hnd.
  rewrite filter_app. simpl. rewrite String.eqb_refl. simpl.
  rewrite !filter_other; [reflexivity| |].
  - intros s Hs E. apply Hnd, in_or_app. right.
    rewrite <- E. now apply in_map.
  - intros s Hs E. apply Hnd, in_or_app. left.
    rewrite <- E. now apply in_map.
Qed.

(** Deleting a stop of a collection with pairwise distinct ids, whose
    costs stay within the safe integers, lowers the total by exactly that
    stop's contribution ([cost || 0]); the costs that remain stay within
    the safe integers. *)
Theorem totalCost_deleteStop (w : World) (x : Stop) :
  (List.length (stops w) <= 10)%nat ->
  NoDup (map id (stops w)) ->
  In x (stops w) ->
  safeCosts (stops w) ->
  add (totalCost (stops (deleteStop (id x) w))) (optOrZero (cost x))
  = totalCost (stops w)
  /\ safeCosts (stops (deleteStop (id x) w)).
Proof.
  intros Hlen Hnd Hx Hsafe. rewrite stops_deleteStop by assumption.
  apply in_split in Hx as (before & after & E). rewrite E in *.
  rewrite filter_id_split by assumption.
  pose proof (Permutation_sym (Permutation_middle before after x)) as Hp.
  split.
  - rewrite (totalCost_perm Hp).
    rewrite !totalCost_sumZ, optOrZero_costValue. simpl. f_equal. lia.
  - unfold safeCosts in *.
    rewrite (sumZ_perm (Permutation_map
               (fun s => Z.abs (costValue s)) Hp)) in Hsafe.
    simpl in Hsafe. lia.
Qed.

Lemma status_counts (m : list Stop) :
  (List.length (filter (fun s => StopStatus_eqb (status s) visited) m)
   + List.length (filter (fun s => StopStatus_eqb (status s) skipped) m)
   + List.length (filter (fun s => StopStatus_eqb (status s) planned) m)
   = List.length m)%nat.
Proof.
  induction m as [|x m IH]; simpl; [reflexivity|].
  destruct (status x); simpl; lia.
Qed.

Lemma filter_nil_find (A : Type) (p : A -> bool) (m : list A) :
  find p m = None <-> List.length (filter p m) = 0%nat.
Proof.
  induction m as [|x m IH]; simpl; [tauto|].
  destruct (p x); simpl; [split; discriminate|exact IH].
Qed.

Lemma status_filter_In (st : StopStatus) (l : list Stop) (s : Stop) :
  In s (filter (fun r => StopStatus_eqb (status r) st) (sortedStops l))
  <-> In s l /\ status s = st.
Proof.
  rewrite filter_In. unfold sortedStops. rewrite Array_sort_In.
  split; intros [H1 H2]; (split; [exact H1|]).
  - destruct (status s), st; simpl in H2; congruence.
  - rewrite H2. now destruct st.
Qed.

Lemma chron_sublist_filter (p : Stop -> bool) (l : list Stop) :
  Forall validTime l ->
  StronglySorted chron (filter p (sortedStops l)).
Proof. intros H. now apply chron_filter, Array_sort_chron. Qed.

(** The two status lists of the screen: [completedStops] holds exactly the
    visited stops of the collection and [skippedStops] exactly the skipped
    ones, each in chronological order when the dates are valid; together
    they never count more than the collection, and they account for all
    of it exactly when there is no [nextStop]. *)
Theorem status_lists (l : list Stop) :
  (forall s, In s (completedStops l) <-> In s l /\ status s = visited)
  /\ (forall s, In s (skippedStops l) <-> In s l /\ status s = skipped)
  /\ (List.length (completedStops l) + List.length (skippedStops l)
      <= List.length l)%nat
  /\ (nextStop l = None <->
      (List.length (completedStops l) + List.length (skippedStops l)
       = List.length l)%nat)
  /\ (Forall validTime l ->
      StronglySorted chron (completedStops l)
      /\ StronglySorted chron (skippedStops l)).
Proof.
  unfold completedStops, skippedStops, nextStop.
  pose proof (status_counts (sortedStops l)) as Hc.
  assert (List.length (sortedStops l) = List.length l) as Hl
    by apply Array_sort_length.
  split; [intros s; apply status_filter_In|].
  split; [intros s; apply status_filter_In|].
  split; [lia|].
  split; [rewrite filter_nil_find; lia|].
  intros Hv. split; now apply chron_sublist_filter.
Qed.

Lemma find_skip (A : Type) (p : A -> bool) (l1 l2 : list A) :
  Forall (fun y => p y = false) l1 -> find p (l1 ++ l2) = find p l2.
Proof.
  induction 1 as [|x l1 Hx Hl1 IH]; simpl; [reflexivity|].
  now rewrite Hx.
Qed.

(** The two buttons beside the next stop.  When [s] is the next stop of a
    collection within the cap and with pairwise distinct ids, finishing it
    ([toggleStatus(s.id)]), marking it visited or skipping it leaves the
    chronological view as it is except for the status of [s], and the
    next stop becomes the first planned stop after [s], if there is
    one. *)
Theorem nextStop_advances (w : World) (before after : list Stop)
    (s : Stop) (force : option StopStatus) :
  (List.length (stops w) <= 10)%nat ->
  NoDup (map id (stops w)) ->
  sortedStops (stops w) = before ++ s :: after ->
  Forall (fun r => status r <> planned) before ->
  status s = planned ->
  force <> Some planned ->
  let target := match force with Some f => f | None => visited end in
  let w' := toggleStatus (id s) force w in
  sortedStops (stops w') = before ++ withStatus s target :: after
  /\ nextStop (stops w')
     = find (fun r => StopStatus_eqb (status r) planned) after.
Proof.
  intros Hlen Hnd Hsorted Hbefore Hs Hforce target w'.
  assert (NoDup (map id (before ++ s :: after))) as Hnd'.
  { rewrite <- Hsorted. eapply Permutation_NoDup; [|exact Hnd].
    apply Permutation_map, Permutation_sym, Array_sort_perm. }
  assert (sortedStops (stops w') = before ++ withStatus s target :: after)
    as Hview.
  { unfold w'. rewrite stops_toggleStatus by assumption.
    assert (sortedStops (toggled (id s) force (stops w))
            = toggled (id s) force (sortedStops (stops w))) as ->.
    { destruct (toggled_as_map (id s) force) as (f & Hf & Hmap).
      unfold sortedStops. rewrite !Hmap.
      apply Array_sort_map. now apply byDateTime_withStatus. }
    rewrite Hsorted.
    rewrite map_app in Hnd'. simpl in Hnd'.
    apply NoDup_remove_2 in Hnd'.
    unfold toggled at 1. rewrite map_app. simpl.
    rewrite String.eqb_refl, Hs. simpl.
    fold (toggled (id s) force before). fold (toggled (id s) force after).
    rewrite !toggled_other.
    - unfold target. now destruct force.
    - intros r Hr E. apply Hnd', in_or_app. right.
      rewrite <- E. now apply in_map.
    - intros r Hr E. apply Hnd', in_or_app. left.
      rewrite <- E. now apply in_map. }
  split; [exact Hview|].
  unfold nextStop. rewrite Hview.
  rewrite find_skip.
  - simpl. assert (target <> planned) as Ht
      by (unfold target; destruct force; congruence).
    now destruct target.
  - eapply Forall_impl; [|exact Hbefore]. intros r. apply planned_false.
Qed.
End ViewsUnderChange.

(* ================================================================== *)
(** ** The tips *)
(* ================================================================== *)

Section TipsFacts.
Context {builtins : Builtins}.

Lemma textOr_nonempty (text : option string) (fallback : string) :
  fallback <> "" -> textOr text fallback <> "".
Proof.
  intros H. destruct text as [[|c t]|]; simpl; try assumption.
  discriminate.
Qed.

(** However a call to the text service ends, the continuation of
    [generateTips] clears the loading flag and leaves a text to show:
    the text of the response, the default text when the response has none
    or an empty one, the fallback text when the call failed.  Only a
    response raises the flag for new tips; a failure leaves it as it
    was. *)
Theorem generateTips_resume_shows_text (o : Outcome) (t : Tips) :
  let t' := generateTips_resume o t in
  isLoadingTips t' = false
  /\ aiTips t' <> ""
  /\ requests t' = requests t
  /\ match o with
     | Resolved (Some (String c rest)) =>
         aiTips t' = String c rest /\ hasNewTips t' = true
     | Resolved _ => aiTips t' = tipsDefault /\ hasNewTips t' = true
     | Rejected => aiTips t' = tipsFallback /\ hasNewTips t' = hasNewTips t
     end.
Proof.
  destruct o as [text|]; simpl.
  - split; [reflexivity|]. split; [now apply textOr_nonempty|].
    split; [reflexivity|]. destruct text as [[|c rest]|]; now split.
  - repeat split. discriminate.
Qed.

Lemma generateTips_nonempty (l : list Stop) (t : Tips) :
  l <> [] ->
  generateTips l t
  = {| aiTips := aiTips t; isLoadingTips := true;
       hasNewTips := hasNewTips t;
       requests := contents (stopNames l) :: requests t;
       pending := S (pending t) |}.
Proof. destruct l; [congruence|reflexivity]. Qed.

(** Calls are not sequenced.  With two calls for non-empty lists under
    way, the first response to arrive clears the loading flag although a
    call is still pending; and of two responses the later one alone
    decides the text shown, while the flag for new tips raised by an
    earlier response survives a later failure. *)
Theorem generateTips_overlap (l1 l2 : list Stop) (o o' : Outcome)
    (t : Tips) :
  l1 <> [] -> l2 <> [] ->
  let started := generateTips l2 (generateTips l1 t) in
  isLoadingTips (generateTips_resume o started) = false
  /\ pending (generateTips_resume o started) = S (pending t)
  /\ aiTips (generateTips_resume o' (generateTips_resume o started))
     = aiTips (generateTips_resume o' t)
  /\ (forall text,
        o = Resolved text -> o' = Rejected ->
        hasNewTips (generateTips_resume o' (generateTips_resume o started))
        = true
        /\ aiTips (generateTips_resume o' (generateTips_resume o started))
           = tipsFallback).
Proof.
  intros H1 H2 started. unfold started.
  rewrite (generateTips_nonempty _ H2), (generateTips_nonempty _ H1).
  split; [now destruct o|]. split; [now destruct o|].
  split; [now destruct o, o'|].
  intros text -> ->. now split.
Qed.


End TipsFacts.

(* ================================================================== *)
(** ** The cost line of a card *)
(* ================================================================== *)

Section CardFacts.
Context {builtins : Builtins}.

(** The cost line of the card of a stop made by [addStop].  The amount is
    shown exactly when [Number] reads a positive number from the cost
    field.  When it reads zero (as for the empty field) or [NaN], the
    stored cost is the number [0] and the card shows that [0] as text in
    place of the line; a negative cost shows nothing. *)
Theorem costChild_of_added (uuid : string) (formData : FormData)
    (count : nat) :
  costChild (cost (newStop uuid formData count))
  = match Number (get_cost formData) with
    | NaN => NumberText (Num 0)
    | Num z =>
        if z =? 0 then NumberText (Num 0)
        else if 0 <? z then CostElement (Num z)
        else NoChild
    end.
Proof.
  unfold newStop, costChild, orZero; simpl.
  destruct (Number (get_cost formData)) as [|z]; simpl; [reflexivity|].
  destruct (Z.eqb_spec z 0) as [->|Hz]; simpl; [reflexivity|].
  now rewrite (proj2 (Z.eqb_neq z 0) Hz).
Qed.
End CardFacts.

(* ================================================================== *)
(** ** What the buttons can do to a visited stop *)
(* ================================================================== *)

Section ClickFacts.
Context {builtins : Builtins}.

Lemma id_determines (l : list Stop) (s s0 : Stop) :
  NoDup (map id l) -> In s l -> In s0 l -> id s = id s0 -> s = s0.
Proof.
  induction l as [|x l IH]; simpl; intros Hnd Hs Hs0 E; [tauto|].
  inversion Hnd as [|? ? Hx Hl]; subst.
  destruct Hs as [->|Hs], Hs0 as [->|Hs0]; try reflexivity.
  - exfalso. apply Hx. rewrite E. now apply in_map.
  - exfalso. apply Hx. rewrite <- E. now apply in_map.
  - now apply IH.
Qed.

Lemma toggled_ids (id0 : string) (force : option StopStatus)
    (l : list Stop) :
  map id (toggled id0 force l) = map id l.
Proof.
  unfold toggled. rewrite map_map. apply map_ext. intros s.
  now destruct (String.eqb (id s) id0).
Qed.

Lemma filter_ids_NoDup (p : Stop -> bool) (l : list Stop) :
  NoDup (map id l) -> NoDup (map id (filter p l)).
Proof.
  induction l as [|x l IH]; simpl; intros Hnd; [constructor|].
  inversion Hnd as [|? ? Hx Hl]; subst.
  destruct (p x); simpl; [|now apply IH].
  constructor; [|now apply IH].
  intros Hin. apply Hx. apply in_map_iff in Hin as (y & Ey & Hy).
  apply filter_In in Hy as [Hy _]. rewrite <- Ey. now apply in_map.
Qed.

Lemma nextStop_planned (l : list Stop) (s : Stop) :
  nextStop l = Some s -> In s l /\ status s = planned.
Proof.
  unfold nextStop. intros H. apply find_some in H as [Hin Hp].
  split; [now apply Array_sort_In in Hin|now apply planned_true].
Qed.

Lemma toggle_spares_visited (w : World) (s s0 : Stop)
    (force : option StopStatus) :
  (List.length (stops w) <= 10)%nat ->
  NoDup (map id (stops w)) ->
  In s (stops w) -> status s = visited ->
  In s0 (stops w) -> status s0 <> visited ->
  In s (stops (toggleStatus (id s0) force w)).
Proof.
  intros Hlen Hnd Hs Hv Hs0 Hnv.
  rewrite stops_toggleStatus by assumption.
  assert (id s <> id s0) as Hne.
  { intros E. apply (id_determines _ _ _ Hnd Hs Hs0) in E. congruence. }
  unfold toggled. apply in_map_iff. exists s. split; [|exact Hs].
  now rewrite (proj2 (String.eqb_neq _ _) Hne).
Qed.

Lemma click_step (w w' : World) (s : Stop) :
  click w w' ->
  (List.length (stops w) <= 10)%nat ->
  NoDup (map id (stops w)) ->
  In s (stops w) -> status s = visited ->
  (List.length (stops w') <= 10)%nat
  /\ NoDup (map id (stops w'))
  /\ unchangedOrGone s w'.
Proof.
  intros Hclick Hlen Hnd Hs Hv. unfold unchangedOrGone.
  assert (forall s0 force, In s0 (stops w) -> status s0 <> visited ->
            (List.length (stops (toggleStatus (id s0) force w)) <= 10)%nat
            /\ NoDup (map id (stops (toggleStatus (id s0) force w)))
            /\ (In s (stops (toggleStatus (id s0) force w))
                \/ forall s', In s' (stops (toggleStatus (id s0) force w)) ->
                              id s' <> id s)) as Htoggle.
  { intros s0 force Hs0 Hnv. split; [apply setStops_settled|].
    split.
    - rewrite stops_toggleStatus by assumption. now rewrite toggled_ids.
    - left. now apply toggle_spares_visited. }
  destruct Hclick as [w s0 H|w s0 H|w s0 H|w s0 H Hst|w s0 H Hst|w s0 H Hst
                     |w s0 H|w uuid formData Hfresh].
  - apply nextStop_planned in H as [Hin Hp]. apply Htoggle; congruence.
  - apply nextStop_planned in H as [Hin Hp]. apply Htoggle; congruence.
  - unfold skippedStops in H. apply filter_In in H as [Hin Hp].
    apply Array_sort_In in Hin.
    apply Htoggle; [exact Hin|]. destruct (status s0); simpl in Hp;
      congruence.
  - apply Array_sort_In in H. now apply Htoggle.
  - apply Array_sort_In in H. apply Htoggle; congruence.
  - apply Array_sort_In in H. apply Htoggle; congruence.
  - split; [apply setStops_settled|].
    rewrite stops_deleteStop by assumption.
    split; [now apply filter_ids_NoDup|].
    destruct (String.eqb_spec (id s) (id s0)) as [E|Hne].
    + right. intros s' Hs'. apply filter_In in Hs' as [_ Hs'].
      rewrite E. intros E'. rewrite E', String.eqb_refl in Hs'.
      discriminate.
    + left. apply filter_In. split; [exact Hs|].
      now rewrite (proj2 (String.eqb_neq _ _) Hne).
  - split; [apply setStops_settled|].
    destruct (Nat.eq_dec (List.length (stops w)) 10) as [E|Hne].
    + assert (stops (addStop uuid formData w) = []) as ->.
      { unfold addStop. rewrite setStops_beyond; [reflexivity|].
        rewrite updatedStops_length. lia. }
      split; [constructor|]. right. intros s' [].
    + rewrite stops_addStop by lia.
      pose proof (updatedStops_perm uuid formData (stops w)) as Hp.
      split.
      * eapply Permutation_NoDup;
          [apply Permutation_map, Permutation_sym, Hp|].
        simpl. constructor; [|exact Hnd].
        intros Hin. apply in_map_iff in Hin as (y & Ey & Hy).
        now apply (Hfresh y Hy).
      * left. eapply Permutation_in; [apply Permutation_sym, Hp|].
        now right.
Qed.

(** No button leads out of ['visited'].  Starting from a collection
    within the cap and with pairwise distinct ids, through any sequence of
    clicks a visited stop stays the very same record, status and [order]
    included, for as long as a stop with its id exists: it can only be
    deleted, or wiped by the reset at the cap. *)
Theorem visited_stays_visited (w w' : World) (s : Stop) :
  clicksKeeping (id s) w w' ->
  (List.length (stops w) <= 10)%nat ->
  NoDup (map id (stops w)) ->
  In s (stops w) -> status s = visited ->
  In s (stops w')
  /\ (List.length (stops w') <= 10)%nat
  /\ NoDup (map id (stops w')).
Proof.
  intros Hclicks Hlen Hnd Hs Hv.
  induction Hclicks as [w|w w' w'' Hclicks IH Hclick Hkept].
  - now repeat split.
  - destruct (IH Hlen Hnd Hs) as (Hs' & Hlen' & Hnd').
    destruct (@click_step w' w'' s Hclick Hlen' Hnd' Hs' Hv)
      as (Hlen'' & Hnd'' & [Hin|Hgone]).
    + now repeat split.
    + exfalso. destruct Hkept as (s' & Hs'' & E).
      exact (Hgone s' Hs'' E).
Qed.
End ClickFacts.

(* ================================================================== *)
(** ** Deleting twice, the highlight, and runs across the cap *)
(* ================================================================== *)

Section MoreStoreFacts.
Context {builtins : Builtins}.

Lemma filter_twice (A : Type) (p : A -> bool) (l : list A) :
  filter p (filter p l) = filter p l.
Proof.
  induction l as [|x l IH]; simpl; [reflexivity|].
  destruct (p x) eqn:E; simpl; rewrite ?E, IH; reflexivity.
Qed.

(** [deleteStop] removes every stop that carries the id, duplicates
    included, and deleting the same id again changes nothing: not the
    collection, not the storage, not the alerts. *)
Theorem deleteStop_idempotent (id0 : string) (w : World) :
  (forall s, In s (stops (deleteStop id0 w)) -> id s <> id0)
  /\ deleteStop id0 (deleteStop id0 w) = deleteStop id0 w.
Proof.
  unfold deleteStop. rewrite (setStops_cases _ w).
  destruct (10 <? List.length
              (filter (fun s => negb (String.eqb (id s) id0)) (stops w)))%nat
    eqn:E; simpl stops.
  - split; [intros s []|]. simpl. now rewrite setStops_cases.
  - split.
    + intros s Hs. apply filter_In in Hs as [_ Hs].
      intros Eid. rewrite Eid, String.eqb_refl in Hs. discriminate.
    + rewrite filter_twice, setStops_cases, E. reflexivity.
Qed.

(** The highlight of the route tracker: in a collection with pairwise
    distinct ids the stop shown as active is the next stop and no other,
    so it is a planned stop, and no stop is active when there is no next
    stop. *)
Theorem isActive_marks_next (l : list Stop) (stop : Stop) :
  NoDup (map id l) -> In stop l ->
  (isActive l stop = true <-> nextStop l = Some stop)
  /\ (isActive l stop = true -> status stop = planned).
Proof.
  intros Hnd Hin.
  assert (isActive l stop = true <-> nextStop l = Some stop) as H.
  { unfold isActive. destruct (nextStop l) as [next|] eqn:E.
    - split.
      + intros Hid. apply String.eqb_eq in Hid.
        apply nextStop_planned in E as [Hnext _].
        f_equal. symmetry. now apply (id_determines _ _ _ Hnd Hin Hnext).
      + intros [= ->]. apply String.eqb_refl.
    - split; discriminate. }
  split; [exact H|].
  intros Ha. apply H in Ha. now apply nextStop_planned in Ha.
Qed.


End MoreStoreFacts.

(* ================================================================== *)
(** ** The further properties on the sample data *)
(* ================================================================== *)

Lemma fourStops_valid : Forall (@validTime formBuiltins) fourStops.
Proof. repeat constructor; vm_compute; discriminate. Defined.

Lemma fourStops_ids : NoDup (map id fourStops).
Proof.
  vm_compute. repeat constructor; simpl; intuition discriminate.
Defined.

Lemma twoStopsWorld_chronological :
  @chronological formBuiltins (stops twoStopsWorld).
Proof.
  exact (proj1 (@reachable_invariant formBuiltins twoStopsWorld
                  twoStopsWorld_reachable)).
Defined.

Lemma twoStopsWorld_room : (List.length (stops twoStopsWorld) < 10)%nat.
Proof. vm_compute; lia. Defined.

Lemma twoStopsWorld_within : (List.length (stops twoStopsWorld) <= 10)%nat.
Proof. vm_compute; lia. Defined.

Lemma twoStopsWorld_distinct : NoDup (map id (stops twoStopsWorld)).
Proof.
  vm_compute. repeat constructor; simpl; intuition discriminate.
Defined.

Lemma tieForm_valid :
  @validTime formBuiltins
    (@newStop formBuiltins "id-c" tieForm (List.length (stops twoStopsWorld))).
Proof. vm_compute; discriminate. Defined.

Lemma twoStopsWorld_fresh (s : Stop) :
  In s (stops twoStopsWorld) -> id s <> "id-c".
Proof.
  intros Hs. vm_compute in Hs.
  destruct Hs as [<-|[<-|[]]]; vm_compute; discriminate.
Defined.

Lemma tieStops_valid : Forall (@validTime formBuiltins) tieStops.
Proof. repeat constructor; vm_compute; discriminate. Defined.

(** Of the two stops at 07:00 the one made later stands first in the
    array, and first in the view. *)
Lemma sortedStops_stable_witness :
  Forall (@validTime formBuiltins) tieStops
  /\ @sortedStops formBuiltins tieStops = [tieStop; earlyStop; lateStop]
  /\ @atTime formBuiltins (@timeOf formBuiltins earlyStop)
       (@sortedStops formBuiltins tieStops)
     = @atTime formBuiltins (@timeOf formBuiltins earlyStop) tieStops.
Proof.
  split; [exact tieStops_valid|].
  split; [vm_compute; reflexivity|].
  exact (proj1 (@sortedStops_stable formBuiltins
                  (@timeOf formBuiltins earlyStop) tieStops
                  tieStops_valid)).
Defined.

Lemma sortedStops_chronological_witness :
  Forall (@validTime formBuiltins) fourStops
  /\ Permutation (@sortedStops formBuiltins fourStops) fourStops
  /\ @sortedStops formBuiltins (@sortedStops formBuiltins fourStops)
     = @sortedStops formBuiltins fourStops.
Proof.
  split; [exact fourStops_valid|].
  destruct (@sortedStops_chronological formBuiltins fourStops
              fourStops_valid) as (Hp & _ & Hi).
  split; [exact Hp|exact Hi].
Defined.

Lemma twoStopsWorld_valid :
  Forall (@validTime formBuiltins) (stops twoStopsWorld).
Proof. exact (proj2 twoStopsWorld_chronological). Defined.

Lemma twoStopsWorld_validSaved : @validSaved formBuiltins twoStopsWorld.
Proof.
  intros saved H.
  assert (saved = stops twoStopsWorld) as ->
    by (vm_compute in H; injection H as <-; vm_compute; reflexivity).
  exact twoStopsWorld_valid.
Defined.

Lemma mount_restores_witness :
  @validSaved formBuiltins twoStopsWorld
  /\ settled twoStopsWorld /\ mount twoStopsWorld = twoStopsWorld.
Proof.
  split; [exact twoStopsWorld_validSaved|].
  split; [exact twoStopsWorld_settled|].
  exact (proj1 (@mount_restores formBuiltins twoStopsWorld
                  twoStopsWorld_validSaved) twoStopsWorld_settled).
Defined.

Lemma operations_end_at_rest_witness :
  Forall (@validTime formBuiltins) (stops twoStopsWorld)
  /\ @validSaved formBuiltins twoStopsWorld
  /\ settled (@addStop formBuiltins "id-c" tieForm twoStopsWorld)
  /\ settled (deleteStop "id-a" twoStopsWorld).
Proof.
  split; [exact twoStopsWorld_valid|].
  split; [exact twoStopsWorld_validSaved|].
  destruct (@operations_end_at_rest formBuiltins twoStopsWorld
              twoStopsWorld_valid twoStopsWorld_validSaved)
    as (_ & Hadd & _ & Hdel).
  split; [exact (proj1 (Hadd "id-c" tieForm tieForm_valid))|].
  exact (proj1 (Hdel "id-a")).
Defined.

(** A third stop for 07:00, the instant of the early stop: it is stored
    behind the early stop and before the late one. *)
Example addStop_tie_sample :
  stops (@addStop formBuiltins "id-c" tieForm twoStopsWorld)
  = [earlyStop; @newStop formBuiltins "id-c" tieForm 2; lateStop].
Proof. vm_compute. reflexivity. Qed.

Lemma addStop_inserts_in_place_witness :
  @chronological formBuiltins (stops twoStopsWorld)
  /\ (List.length (stops twoStopsWorld) < 10)%nat
  /\ exists l1 l2,
       stops twoStopsWorld = l1 ++ l2
       /\ stops (@addStop formBuiltins "id-c" tieForm twoStopsWorld)
          = l1 ++ @newStop formBuiltins "id-c" tieForm
                    (List.length (stops twoStopsWorld)) :: l2
       /\ Forall (fun y => @chron formBuiltins y
                    (@newStop formBuiltins "id-c" tieForm
                       (List.length (stops twoStopsWorld)))) l1
       /\ Forall (fun y => @earlier formBuiltins
                    (@newStop formBuiltins "id-c" tieForm
                       (List.length (stops twoStopsWorld))) y) l2.
Proof.
  split; [exact twoStopsWorld_chronological|].
  split; [exact twoStopsWorld_room|].
  exact (@addStop_inserts_in_place formBuiltins "id-c" tieForm
           twoStopsWorld twoStopsWorld_chronological twoStopsWorld_room
           tieForm_valid).
Defined.

Lemma deleteStop_undoes_addStop_witness :
  settled twoStopsWorld
  /\ deleteStop "id-c" (@addStop formBuiltins "id-c" tieForm twoStopsWorld)
     = twoStopsWorld.
Proof.
  split; [exact twoStopsWorld_settled|].
  exact (@deleteStop_undoes_addStop formBuiltins "id-c" tieForm
           twoStopsWorld twoStopsWorld_settled twoStopsWorld_chronological
           twoStopsWorld_room tieForm_valid twoStopsWorld_fresh).
Defined.

Lemma toggleStatus_commutes_witness :
  "id-a" <> "id-b"
  /\ (List.length (stops twoStopsWorld) <= 10)%nat
  /\ toggleStatus "id-a" None
       (toggleStatus "id-b" (Some skipped) twoStopsWorld)
     = toggleStatus "id-b" (Some skipped)
         (toggleStatus "id-a" None twoStopsWorld)
  /\ deleteStop "id-a" (toggleStatus "id-b" None twoStopsWorld)
     = toggleStatus "id-b" None (deleteStop "id-a" twoStopsWorld).
Proof.
  assert ("id-a" <> "id-b") as Hne by discriminate.
  split; [exact Hne|]. split; [exact twoStopsWorld_within|].
  split.
  - exact (proj1 (toggleStatus_commutes "id-a" "id-b" None (Some skipped)
                    twoStopsWorld) Hne).
  - exact (proj2 (toggleStatus_commutes "id-a" "id-b" None None
                    twoStopsWorld) twoStopsWorld_within).
Defined.

Lemma toggleStatus_frame_witness :
  (List.length (stops twoStopsWorld) <= 10)%nat
  /\ nth_error (stops (toggleStatus "id-b" None twoStopsWorld)) 1
     = Some lateStop
  /\ totalCost (stops (toggleStatus "id-b" None twoStopsWorld))
     = totalCost (stops twoStopsWorld).
Proof.
  split; [exact twoStopsWorld_within|].
  destruct (@toggleStatus_frame "id-b" None twoStopsWorld
              twoStopsWorld_within) as (Hnth & _ & _ & Hcost).
  split; [|exact Hcost].
  apply Hnth; [vm_compute; reflexivity|vm_compute; discriminate].
Defined.

Lemma tieWorld_safe :
  safeCosts (stops (@addStop formBuiltins "id-c" tieForm twoStopsWorld)).
Proof.
  let l := eval vm_compute in
             (stops (@addStop formBuiltins "id-c" tieForm twoStopsWorld)) in
  change (safeCosts l).
  vm_compute. discriminate.
Defined.

Lemma totalCost_addStop_witness :
  (List.length (stops twoStopsWorld) < 10)%nat
  /\ safeCosts (stops (@addStop formBuiltins "id-c" tieForm twoStopsWorld))
  /\ totalCost (stops (@addStop formBuiltins "id-c" tieForm twoStopsWorld))
     = Num 12000.
Proof.
  split; [exact twoStopsWorld_room|]. split; [exact tieWorld_safe|].
  rewrite (proj1 (@totalCost_addStop formBuiltins "id-c" tieForm
                    twoStopsWorld twoStopsWorld_room tieWorld_safe)).
  vm_compute. reflexivity.
Defined.

Lemma totalCost_deleteStop_witness :
  NoDup (map id (stops fourStopsWorld))
  /\ In stopD (stops fourStopsWorld)
  /\ safeCosts (stops fourStopsWorld)
  /\ add (totalCost (stops (deleteStop "D" fourStopsWorld))) (Num 2500)
     = Num 3500.
Proof.
  split; [exact fourStops_ids|].
  assert (In stopD (stops fourStopsWorld)) as Hin
    by (simpl; auto).
  split; [exact Hin|]. split; [exact fourStops_safe|].
  assert (List.length (stops fourStopsWorld) <= 10)%nat as Hlen
    by (simpl; lia).
  exact (proj1 (@totalCost_deleteStop fourStopsWorld stopD Hlen
                  fourStops_ids Hin fourStops_safe)).
Defined.

Lemma status_lists_witness :
  Forall (@validTime formBuiltins) fourStops
  /\ StronglySorted (@chron formBuiltins)
       (@completedStops formBuiltins fourStops)
  /\ (List.length (@completedStops formBuiltins fourStops)
      + List.length (@skippedStops formBuiltins fourStops)
      <= List.length fourStops)%nat.
Proof.
  split; [exact fourStops_valid|].
  destruct (@status_lists formBuiltins fourStops)
    as (_ & _ & Hle & _ & Hsorted).
  split; [exact (proj1 (Hsorted fourStops_valid))|exact Hle].
Defined.

(** Finishing stop C, the next stop of the four: stop A becomes the next
    one. *)
Lemma nextStop_advances_witness :
  @sortedStops formBuiltins (stops fourStopsWorld)
  = [stopB; stopD] ++ stopC :: [stopA]
  /\ @nextStop formBuiltins (stops (toggleStatus "C" None fourStopsWorld))
     = Some stopA.
Proof.
  assert (@sortedStops formBuiltins (stops fourStopsWorld)
          = [stopB; stopD] ++ stopC :: [stopA]) as H
    by (vm_compute; reflexivity).
  split; [exact H|].
  assert (List.length (stops fourStopsWorld) <= 10)%nat as Hlen
    by (simpl; lia).
  assert (Forall (fun r => status r <> planned) [stopB; stopD]) as Hb
    by (repeat constructor; discriminate).
  assert (@None StopStatus <> Some planned) as Hf by discriminate.
  destruct (@nextStop_advances formBuiltins fourStopsWorld [stopB; stopD]
              [stopA] stopC None Hlen fourStops_ids H Hb eq_refl Hf)
    as (_ & Hnext).
  exact Hnext.
Defined.

Lemma generateTips_overlap_witness :
  [stopA] <> [] /\ fourStops <> []
  /\ isLoadingTips
       (generateTips_resume Rejected
          (generateTips fourStops (generateTips [stopA] initialTips)))
     = false
  /\ pending
       (generateTips_resume Rejected
          (generateTips fourStops (generateTips [stopA] initialTips)))
     = 1%nat.
Proof.
  assert ([stopA] <> []) as H1 by discriminate.
  assert (fourStops <> []) as H2 by discriminate.
  split; [exact H1|]. split; [exact H2|].
  destruct (@generateTips_overlap [stopA] fourStops Rejected Rejected
              initialTips H1 H2) as (Hl & Hp & _).
  split; [exact Hl|exact Hp].
Defined.



Lemma visitedWorld_click :
  @click formBuiltins visitedWorld
    (toggleStatus "id-a" (Some skipped) visitedWorld).
Proof.
  apply (@click_card_skip formBuiltins visitedWorld lateStop).
  - vm_compute. auto.
  - reflexivity.
Defined.

(** The early stop is visited; skipping the late one leaves it as it
    is. *)
Lemma visited_stays_visited_witness :
  In visitedStop (stops visitedWorld)
  /\ status visitedStop = visited
  /\ In visitedStop
       (stops (toggleStatus "id-a" (Some skipped) visitedWorld)).
Proof.
  assert (In visitedStop (stops visitedWorld)) as Hin
    by (vm_compute; auto).
  split; [exact Hin|]. split; [reflexivity|].
  assert (@clicksKeeping formBuiltins (id visitedStop) visitedWorld
            (toggleStatus "id-a" (Some skipped) visitedWorld)) as Hclicks.
  { eapply keeping_more;
      [apply keeping_none|exact visitedWorld_click|].
    exists visitedStop. split; [vm_compute; auto|reflexivity]. }
  assert (List.length (stops visitedWorld) <= 10)%nat as Hlen
    by (vm_compute; lia).
  assert (NoDup (map id (stops visitedWorld))) as Hnd
    by (vm_compute; repeat constructor; simpl; intuition discriminate).
  exact (proj1 (@visited_stays_visited formBuiltins visitedWorld
                  (toggleStatus "id-a" (Some skipped) visitedWorld)
                  visitedStop Hclicks Hlen Hnd Hin eq_refl)).
Defined.

Lemma isActive_marks_next_witness :
  NoDup (map id fourStops) /\ In stopC fourStops
  /\ @isActive formBuiltins fourStops stopC = true
  /\ @nextStop formBuiltins fourStops = Some stopC.
Proof.
  assert (In stopC fourStops) as Hin by (simpl; auto).
  split; [exact fourStops_ids|]. split; [exact Hin|].
  assert (@isActive formBuiltins fourStops stopC = true) as Ha
    by (vm_compute; reflexivity).
  split; [exact Ha|].
  exact (proj1 (proj1 (@isActive_marks_next formBuiltins fourStops stopC
                         fourStops_ids Hin)) Ha).
Defined.

